(** * bnf-lang: a backtracking parser and an evaluator for arithmetic expressions

    A shallow embedding of [bnf-lang.py]: the grammar table [bnf_syntax], the
    recursive-descent parser ([parse_part], [parse_rule], [parse],
    [parse_expression]) and the tree-walking evaluator ([numjoin],
    [evaluate]), followed by the properties of the specification.

    Conventions of the embedding.
    - A Python exception is a constructor of [exn]; a call that returns or
      raises is a [result].
    - The parser's recursion follows the grammar, not the input, so it is
      defined with a recursion budget: [None] means that the budget ran out
      (in Python: the recursion never returns, or the interpreter's recursion
      limit stops it with an exception that [except ParseError] does not
      catch).  [parse_fuel_mono] shows that a result, once obtained, is the
      same under every larger budget.
    - A token sequence is a list of tokens, each token a string; a Python
      [str] is the sequence of its one-character strings ([tokens_of]).
    - A syntax tree is the tuple [(identifier, parts)]; an element of [parts]
      is such a tuple or a bare token.
    - [evaluate] reads the module's global variables [x], [y], [z]; they are
      its [environment], and they are bound to numbers.
    - Numbers are Python's: [int] is [Z], [float] is IEEE 754 binary64.
    - The interpreter's limits (the depth of recursion, the number of digits
      that [int] and [str] convert) are not part of the embedding. *)

From Stdlib Require Import List String Ascii ZArith QArith Bool Lia.
From Stdlib Require Import Floats.SpecFloat DecimalString.
From Stdlib Require DecimalPos.
Import ListNotations.

Local Open Scope string_scope.
Local Open Scope list_scope.
Local Open Scope nat_scope.

(** ** Exceptions and results *)

Inductive exn : Type :=
| ValueError
| IndexError
| KeyError
| TypeError
| NameError
| ZeroDivisionError
| OverflowError.

Inductive result (A : Type) : Type :=
| Ok (a : A)
| Raise (e : exn).

Arguments Ok {A} a.
Arguments Raise {A} e.

Definition bind {A B : Type} (r : result A) (k : A -> result B) : result B :=
  match r with
  | Ok a => k a
  | Raise e => Raise e
  end.

Notation "x <- r ;; k" := (bind r (fun x => k))
  (at level 61, r at next level, right associativity).

(** [ParseError = (ValueError, IndexError)]: what [except ParseError] catches. *)
Definition ParseError (e : exn) : bool :=
  match e with
  | ValueError | IndexError => true
  | _ => false
  end.

(** ** Grammar *)

Definition rule := list string.

(** The grammar dictionary, as the list of its items.  [syntax[identifier]]
    is [lookup], [part in syntax] is [mem]. *)
Definition grammar := list (string * list rule).

Fixpoint lookup (syntax : grammar) (identifier : string) : option (list rule) :=
  match syntax with
  | [] => None
  | (k, rules) :: rest =>
      if String.eqb identifier k then Some rules else lookup rest identifier
  end.

Definition mem (part : string) (syntax : grammar) : bool :=
  match lookup syntax part with
  | Some _ => true
  | None => false
  end.

Definition bnf_syntax : grammar :=
  [ ("expression", [["term"; "sumop"; "expression"]; ["term"]]);
    ("sumop", [["+"]; ["-"]]);
    ("term", [["factor"; "prodop"; "term"]; ["factor"]]);
    ("prodop", [["*"]; ["/"]]);
    ("factor", [["constant"]; ["variable"]; ["("; "expression"; ")"]]);
    ("variable", [["x"]; ["y"]; ["z"]]);
    ("constant", [["digit"; "constant"]; ["digit"]]);
    ("digit", [["0"]; ["1"]; ["2"]; ["3"]; ["4"]; ["5"]; ["6"]; ["7"]; ["8"]; ["9"]]) ].

(** ** Tokens and trees *)

(** "1 string character = 1 token". *)
Definition tokens_of (s : string) : list string :=
  map (fun c => String c EmptyString) (list_ascii_of_string s).

#[warnings="-register-all"]
Inductive tree : Type :=
| Leaf (token : string)
| Node (identifier : string) (parts : list tree).

(** The tokens at the leaves of a tree, left to right. *)
Fixpoint leaves (t : tree) : list string :=
  match t with
  | Leaf token => [token]
  | Node _ parts => flat_map leaves parts
  end.

(** ** Parser *)

(** The type of [parse] once [tokens] and [syntax] are fixed: from a start
    position and an identifier to an end position and a tree. *)
Definition parser := nat -> string -> option (result (nat * tree)).

Section Parser.

Variable tokens : list string.
Variable syntax : grammar.

Section Body.

(** The recursive call [parse(tokens, j, part, syntax)]. *)
Variable parse : parser.

Definition parse_part (j : nat) (part : string) : option (result (nat * tree)) :=
  if mem part syntax then parse j part
  else
    match nth_error tokens j with
    | None => Some (Raise IndexError)
    | Some token =>
        if String.eqb part token then Some (Ok (j + 1, Leaf token))
        else Some (Raise ValueError)
    end.

Fixpoint parse_rule (i : nat) (rule : rule) : option (result (nat * list tree)) :=
  match rule with
  | [] => Some (Ok (i, []))
  | part :: rule' =>
      match parse_part i part with
      | None => None
      | Some (Raise e) => Some (Raise e)
      | Some (Ok (i', el)) =>
          match parse_rule i' rule' with
          | None => None
          | Some (Raise e) => Some (Raise e)
          | Some (Ok (i'', parts)) => Some (Ok (i'', el :: parts))
          end
      end
  end.

(** The loop [for rule in syntax[identifier]] of [parse], from the
    alternative it has reached.  [i] is assigned only when [parse_rule]
    returns, so a caught failure leaves it as it was. *)
Fixpoint parse_alternatives (i : nat) (identifier : string) (rules : list rule)
  : option (result (nat * tree)) :=
  match rules with
  | [] => Some (Raise ValueError)
  | rule :: rules' =>
      match parse_rule i rule with
      | None => None
      | Some (Ok (i', parts)) => Some (Ok (i', Node identifier parts))
      | Some (Raise e) =>
          if ParseError e then parse_alternatives i identifier rules'
          else Some (Raise e)
      end
  end.

Definition parse_body (i : nat) (identifier : string) : option (result (nat * tree)) :=
  match lookup syntax identifier with
  | None => Some (Raise KeyError)
  | Some rules => parse_alternatives i identifier rules
  end.

End Body.

Fixpoint parse_fuel (fuel : nat) (i : nat) (identifier : string)
  : option (result (nat * tree)) :=
  match fuel with
  | O => None
  | S fuel' => parse_body (parse_fuel fuel') i identifier
  end.

End Parser.

Definition parse (fuel : nat) (tokens : list string) (i : nat) (identifier : string)
  (syntax : grammar) : option (result (nat * tree)) :=
  parse_fuel tokens syntax fuel i identifier.

Definition parse_expression (fuel : nat) (expression : list string) : option (result tree) :=
  match parse fuel expression 0 "expression" bnf_syntax with
  | None => None
  | Some (Raise e) => Some (Raise e)
  | Some (Ok (_, t)) => Some (Ok t)
  end.

(** ** Numbers

    Python's [int] is [Z]; its [float] is an IEEE 754 binary64 number, a
    [spec_float] with the operations of [SpecFloat] at precision 53. *)

Definition prec : Z := 53.
Definition emax : Z := 1024.

Inductive number : Type :=
| PyInt (n : Z)
| PyFloat (f : spec_float).

(** The functions of the [operator] module that the evaluator returns. *)
Inductive binop : Type :=
| add
| sub
| mul
| truediv.

Inductive value : Type :=
| Num (n : number)
| Fun (f : binop).

(** [float(n)] for an [int]: rounded to nearest, ties to even; too large
    raises [OverflowError]. *)
Definition float_of_int (n : Z) : result spec_float :=
  match binary_normalize prec emax n 0%Z false with
  | S754_infinity _ => Raise OverflowError
  | f => Ok f
  end.

Definition to_float (a : number) : result spec_float :=
  match a with
  | PyInt n => float_of_int n
  | PyFloat f => Ok f
  end.

Definition is_zero (f : spec_float) : bool :=
  match f with
  | S754_zero _ => true
  | _ => false
  end.

(** [a / b] on two [int]s: the quotient rounded once to a float. *)
Definition int_truediv (a b : Z) : result spec_float :=
  let exact (n : Z) :=
    match n with
    | Z0 => S754_zero false
    | Zpos m => S754_finite false m 0%Z
    | Zneg m => S754_finite true m 0%Z
    end in
  if Z.eqb b 0%Z then Raise ZeroDivisionError
  else
    match SFdiv prec emax (exact a) (exact b) with
    | S754_infinity _ => Raise OverflowError
    | f => Ok f
    end.

(** [operator.add(a, b)] and the like on numbers. *)
Definition arith (op : binop) (a b : number) : result number :=
  match op, a, b with
  | add, PyInt x, PyInt y => Ok (PyInt (x + y)%Z)
  | sub, PyInt x, PyInt y => Ok (PyInt (x - y)%Z)
  | mul, PyInt x, PyInt y => Ok (PyInt (x * y)%Z)
  | truediv, PyInt x, PyInt y => f <- int_truediv x y;; Ok (PyFloat f)
  | _, _, _ =>
      x <- to_float a;;
      y <- to_float b;;
      match op with
      | add => Ok (PyFloat (SFadd prec emax x y))
      | sub => Ok (PyFloat (SFsub prec emax x y))
      | mul => Ok (PyFloat (SFmul prec emax x y))
      | truediv =>
          if is_zero y then Raise ZeroDivisionError
          else Ok (PyFloat (SFdiv prec emax x y))
      end
  end.

(** The call [binop(a, b)] on evaluated operands: a number is not callable,
    and the [operator] functions reject a function as an operand. *)
Definition call (f a b : value) : result value :=
  match f, a, b with
  | Fun op, Num x, Num y => n <- arith op x y;; Ok (Num n)
  | _, _, _ => Raise TypeError
  end.

(** ** Conversions between [int] and [str] *)

(** [str(n)] for an [int]. *)
Definition str (n : Z) : string := NilZero.string_of_int (Z.to_int n).

(** Characters are code points below 256; these are the ones [str.isspace]
    accepts. *)
Definition isspace (c : ascii) : bool :=
  let n := nat_of_ascii c in
  ((9 <=? n) && (n <=? 13)) || ((28 <=? n) && (n <=? 32)) || (n =? 133) || (n =? 160).

Definition digit_value (c : ascii) : option Z :=
  let n := nat_of_ascii c in
  if (48 <=? n) && (n <=? 57) then Some (Z.of_nat (n - 48)) else None.

Fixpoint lstrip (s : list ascii) : list ascii :=
  match s with
  | c :: s' => if isspace c then lstrip s' else s
  | [] => []
  end.

Definition strip (s : list ascii) : list ascii :=
  rev (lstrip (rev (lstrip s))).

(** Digits with single underscores between them; [acc] is the value read so
    far and [after_digit] tells whether the previous character was a digit. *)
Fixpoint int_digits (s : list ascii) (acc : Z) (after_digit : bool) : option Z :=
  match s with
  | [] => if after_digit then Some acc else None
  | c :: s' =>
      match digit_value c with
      | Some d => int_digits s' (10 * acc + d)%Z true
      | None =>
          if (nat_of_ascii c =? 95) && after_digit then int_digits s' acc false
          else None
      end
  end.

(** [int(s)] for a [str]: surrounding white space, an optional sign, decimal
    digits; anything else raises [ValueError]. *)
Definition int (s : string) : result Z :=
  let body := strip (list_ascii_of_string s) in
  let '(negative, digits) :=
    match body with
    | c :: rest =>
        if nat_of_ascii c =? 45 then (true, rest)
        else if nat_of_ascii c =? 43 then (false, rest)
        else (false, body)
    | [] => (false, body)
    end in
  match int_digits digits 0%Z false with
  | Some n => Ok (if negative then (- n)%Z else n)
  | None => Raise ValueError
  end.

(** ** Evaluator *)

(** [numjoin(a, b) = int(str(a) + str(b))].  The text of a float or of a
    function contains a character that no integer literal has, so [int]
    raises [ValueError] on it. *)
Definition numjoin (a b : value) : result value :=
  match a, b with
  | Num (PyInt x), Num (PyInt y) => n <- int (String.append (str x) (str y));; Ok (Num (PyInt n))
  | _, _ => Raise ValueError
  end.

(** The module's global variables that [evaluate] reads: [x], [y], [z]. *)
Definition environment := list (string * number).

Fixpoint binding (env : environment) (name : string) : option number :=
  match env with
  | [] => None
  | (k, v) :: env' => if String.eqb name k then Some v else binding env' name
  end.

(** Reading the global [name]: [NameError] when it is not defined. *)
Definition global (env : environment) (name : string) : result value :=
  match binding env name with
  | Some v => Ok (Num v)
  | None => Raise NameError
  end.

(** [part == token] for an element of [parts]: a tuple equals no string. *)
Definition is_token (part : tree) (token : string) : bool :=
  match part with
  | Leaf s => String.eqb s token
  | Node _ _ => false
  end.

(** [part[0]]: the identifier of a tuple, the first character of a token. *)
Definition item0 (part : tree) : result string :=
  match part with
  | Node identifier _ => Ok identifier
  | Leaf EmptyString => Raise IndexError
  | Leaf (String c _) => Ok (String c EmptyString)
  end.

Fixpoint evaluate (env : environment) (t : tree) {struct t} : result value :=
  match t with
  | Leaf token =>
      (* [identifier, parts = tree] unpacks a string of two characters; its
         [identifier] is then one character, which is no known identifier *)
      if String.length token =? 2 then Raise TypeError else Raise ValueError
  | Node identifier parts =>
      if String.eqb identifier "expression" || String.eqb identifier "term" then
        match parts with
        | [p0] => evaluate env p0
        | [p0; p1; p2] =>
            f <- evaluate env p1;;
            a <- evaluate env p0;;
            b <- evaluate env p2;;
            call f a b
        | _ => Raise TypeError
        end
      else if String.eqb identifier "sumop" then
        match parts with
        | [p0] =>
            if is_token p0 "+" then Ok (Fun add)
            else if is_token p0 "-" then Ok (Fun sub)
            else Raise TypeError
        | _ => Raise TypeError
        end
      else if String.eqb identifier "prodop" then
        match parts with
        | [p0] =>
            if is_token p0 "*" then Ok (Fun mul)
            else if is_token p0 "/" then Ok (Fun truediv)
            else Raise TypeError
        | _ => Raise TypeError
        end
      else if String.eqb identifier "factor" then
        match parts with
        | [p0] =>
            l <- item0 p0;;
            if String.eqb l "constant" then evaluate env p0
            else if String.eqb l "variable" then evaluate env p0
            else Raise TypeError
        | [_; p1; _] =>
            l <- item0 p1;;
            if String.eqb l "expression" then evaluate env p1
            else Raise TypeError
        | _ => Raise TypeError
        end
      else if String.eqb identifier "variable" then
        match parts with
        | [p0] =>
            if is_token p0 "x" then global env "x"
            else if is_token p0 "y" then global env "y"
            else if is_token p0 "z" then global env "z"
            else Raise TypeError
        | _ => Raise TypeError
        end
      else if String.eqb identifier "constant" then
        match parts with
        | [p0] => evaluate env p0
        | [p0; p1] =>
            a <- evaluate env p0;;
            b <- evaluate env p1;;
            numjoin a b
        | _ => Raise TypeError
        end
      else if String.eqb identifier "digit" then
        match parts with
        | [Leaf token] => n <- int token;; Ok (Num (PyInt n))
        | [Node _ _] => Raise TypeError
        | _ => Raise TypeError
        end
      else Raise TypeError
  end.

Definition run (fuel : nat) (env : environment) (s : string) : option (result value) :=
  match parse_expression fuel (tokens_of s) with
  | None => None
  | Some (Raise e) => Some (Raise e)
  | Some (Ok t) => Some (evaluate env t)
  end.

(** ** Derivation trees and the language of a grammar *)

(** [conforms syntax part t]: [t] is a derivation tree of the symbol [part].
    A symbol that is no key of the grammar is a terminal and derives the
    token equal to it; a key derives a node whose parts follow one of its
    alternatives. *)
#[warnings="-register-all"]
Inductive conforms (syntax : grammar) : string -> tree -> Prop :=
| conforms_leaf part :
    mem part syntax = false ->
    conforms syntax part (Leaf part)
| conforms_node identifier rules rule parts :
    lookup syntax identifier = Some rules ->
    In rule rules ->
    Forall2 (conforms syntax) rule parts ->
    conforms syntax identifier (Node identifier parts).

(** A token sequence is in the language of [identifier] when it is the
    frontier of a derivation tree of [identifier]. *)
Definition in_language (syntax : grammar) (identifier : string) (s : list string) : Prop :=
  exists t, conforms syntax identifier t /\ leaves t = s.

(** [covers tokens i j ts]: [ts] is the slice [tokens[i:j]]. *)
Definition covers (tokens : list string) (i j : nat) (ts : list string) : Prop :=
  j = i + List.length ts /\ skipn i tokens = ts ++ skipn j tokens.

(** [extends p q]: [q] returns whatever [p] returns. *)
Definition extends (p q : parser) : Prop :=
  forall i part r, p i part = Some r -> q i part = Some r.

(** A successful call returns a derivation tree of its identifier whose
    frontier is the slice between the start and the end position. *)
Definition sound (tokens : list string) (syntax : grammar) (p : parser) : Prop :=
  forall i part j t,
    p i part = Some (Ok (j, t)) ->
    conforms syntax part t /\ covers tokens i j (leaves t).

(** ** Definitions for the shipped grammar *)

Definition digits : list string :=
  ["0"; "1"; "2"; "3"; "4"; "5"; "6"; "7"; "8"; "9"].

(** The tokens that, right after a phrase of [identifier], would make the
    parser read on: a phrase followed by none of them is read whole. *)
Definition stops (identifier : string) : list string :=
  if String.eqb identifier "expression" then ["+"; "-"; "*"; "/"] ++ digits
  else if String.eqb identifier "term" then ["*"; "/"] ++ digits
  else if String.eqb identifier "factor" || String.eqb identifier "constant" then digits
  else [].

Definition next_not_in (l : list string) (rest : list string) : bool :=
  match rest with
  | [] => true
  | token :: _ => negb (existsb (fun s => String.eqb s token) l)
  end.

(** [found tokens i j part t]: with budget enough, [parse] from [i] returns
    the end position [j] and the tree [t]. *)
Definition found (tokens : list string) (i j : nat) (part : string) (t : tree) : Prop :=
  exists n, forall fuel, n <= fuel ->
    parse_fuel tokens bnf_syntax fuel i part = Some (Ok (j, t)).

(** What [evaluate] may return on a derivation tree of [part]: an operator
    rule gives a function, every other rule a number or an exception other
    than [TypeError]. *)
Definition well_typed (part : string) (r : result value) : Prop :=
  if String.eqb part "sumop" || String.eqb part "prodop"
  then exists f, r = Ok (Fun f)
  else
    match r with
    | Ok (Num _) => True
    | Ok (Fun _) => False
    | Raise e => e <> TypeError
    end.

(** The function an operator token stands for. *)
Definition operator_of (token : string) : option binop :=
  if String.eqb token "+" then Some add
  else if String.eqb token "-" then Some sub
  else if String.eqb token "*" then Some mul
  else if String.eqb token "/" then Some truediv
  else None.

(** The tree of [a op1 b op2 c] grouped to the right, for the rule [level]
    ([expression] or [term]) and its operator rule. *)
Definition chain (level operator : string) (a : tree) (op1 : string) (b : tree)
  (op2 : string) (c : tree) : tree :=
  Node level [a; Node operator [Leaf op1];
              Node level [b; Node operator [Leaf op2]; Node level [c]]].

(** The rational number a finite float denotes. *)
Definition float_value (f : spec_float) : option Q :=
  match f with
  | S754_zero _ => Some 0%Q
  | S754_finite s m e => Some (inject_Z (cond_Zopp s (Zpos m)) * Qpower 2 e)%Q
  | _ => None
  end.

(** [denotes f q]: the float [f] is finite and its value is [q]. *)
Definition denotes (f : spec_float) (q : Q) : Prop :=
  match float_value f with
  | Some v => (v == q)%Q
  | None => False
  end.

(** ** Examples *)

(** The tree of ["1+2"]. *)
Definition tree_1_plus_2 : tree :=
  Node "expression"
    [Node "term" [Node "factor" [Node "constant" [Node "digit" [Leaf "1"]]]];
     Node "sumop" [Leaf "+"];
     Node "expression"
       [Node "term" [Node "factor" [Node "constant" [Node "digit" [Leaf "2"]]]]]].

(** The tree of a one-digit term. *)
Definition digit_term (d : string) : tree :=
  Node "term" [Node "factor" [Node "constant" [Node "digit" [Leaf d]]]].

(** The floats 19.5 and 2.5. *)
Definition float_19_5 : spec_float := S754_finite false 5488762045857792 (-48).
Definition float_2_5 : spec_float := S754_finite false 5629499534213120 (-51).

(** The float 8.0. *)
Definition float_8 : spec_float := S754_finite false 4503599627370496 (-49).

(** ** Definitions for further properties *)

(** No alternative of the grammar is the empty sequence. *)
Definition no_empty_rule (syntax : grammar) : Prop :=
  forall identifier rules, lookup syntax identifier = Some rules -> ~ In [] rules.

(** The exceptions a call of [parse] on a key of the grammar may raise:
    none but [ValueError]. *)
Definition raises_ValueError_only (syntax : grammar) (p : parser) : Prop :=
  forall i part e, mem part syntax = true -> p i part = Some (Raise e) -> e = ValueError.

(** The tokens an expression, a term or a factor can begin with. *)
Definition first_tokens : list string := ["("; "x"; "y"; "z"] ++ digits.

(** A budget that is enough for [parse] on the shipped grammar when [m]
    tokens are left from the start position on: the depth to which the
    calls of [parse] nest. *)
Definition recursion_bound (identifier : string) (m : nat) : nat :=
  if String.eqb identifier "expression" then 3 * m + 5
  else if String.eqb identifier "term" then 3 * m + 4
  else if String.eqb identifier "factor" then 3 * m + 3
  else if String.eqb identifier "constant" then m + 2
  else 1.

(** The value of the decimal digits [d] read after the value [acc]. *)
Fixpoint horner (d : Decimal.uint) (acc : Z) : Z :=
  match d with
  | Decimal.Nil => acc
  | Decimal.D0 d' => horner d' (10 * acc + 0)
  | Decimal.D1 d' => horner d' (10 * acc + 1)
  | Decimal.D2 d' => horner d' (10 * acc + 2)
  | Decimal.D3 d' => horner d' (10 * acc + 3)
  | Decimal.D4 d' => horner d' (10 * acc + 4)
  | Decimal.D5 d' => horner d' (10 * acc + 5)
  | Decimal.D6 d' => horner d' (10 * acc + 6)
  | Decimal.D7 d' => horner d' (10 * acc + 7)
  | Decimal.D8 d' => horner d' (10 * acc + 8)
  | Decimal.D9 d' => horner d' (10 * acc + 9)
  end%Z.

(** The characters of the decimal digits [d]. *)
Definition chars (d : Decimal.uint) : list ascii :=
  list_ascii_of_string (NilEmpty.string_of_uint d).

(** The decimal digits that [str] writes for the absolute value of [n]. *)
Definition digits_of (n : Z) : Decimal.uint :=
  match n with
  | Z0 => Decimal.D0 Decimal.Nil
  | Zpos p | Zneg p => Pos.to_uint p
  end.

(** The exceptions [evaluate] may raise on a derivation tree: that of an
    unbound variable and those of arithmetic. *)
Definition arithmetic_or_unbound (env : environment) (e : exn) : Prop :=
  (e = NameError /\ exists name, In name ["x"; "y"; "z"] /\ binding env name = None) \/
  e = ZeroDivisionError \/ e = OverflowError.

(** What [evaluate] returns on a derivation tree of [part]: an operator
    rule gives a function, [constant] and [digit] an [int] that is not
    negative, every other rule a number or one of the exceptions above. *)
Definition outcome_of (env : environment) (part : string) (r : result value) : Prop :=
  if String.eqb part "sumop" || String.eqb part "prodop"
  then exists f, r = Ok (Fun f)
  else if String.eqb part "constant" || String.eqb part "digit"
  then exists n, r = Ok (Num (PyInt n)) /\ (0 <= n)%Z
  else
    match r with
    | Ok (Num _) => True
    | Ok (Fun _) => False
    | Raise e => arithmetic_or_unbound env e
    end.

(** The derivation tree of one digit. *)
Definition digit_node (c : string) : tree := Node "digit" [Leaf c].

(** The derivation tree of a constant that begins with the digit [c] and
    goes on with the digits [d'], whose tree is [rest]. *)
Definition constant_node (c : string) (d' : Decimal.uint) (rest : tree) : tree :=
  match d' with
  | Decimal.Nil => Node "constant" [digit_node c]
  | _ => Node "constant" [digit_node c; rest]
  end.

(** The derivation tree of the constant with the decimal digits [d]. *)
Fixpoint constant_tree (d : Decimal.uint) : tree :=
  match d with
  | Decimal.Nil => Node "constant" []
  | Decimal.D0 d' => constant_node "0" d' (constant_tree d')
  | Decimal.D1 d' => constant_node "1" d' (constant_tree d')
  | Decimal.D2 d' => constant_node "2" d' (constant_tree d')
  | Decimal.D3 d' => constant_node "3" d' (constant_tree d')
  | Decimal.D4 d' => constant_node "4" d' (constant_tree d')
  | Decimal.D5 d' => constant_node "5" d' (constant_tree d')
  | Decimal.D6 d' => constant_node "6" d' (constant_tree d')
  | Decimal.D7 d' => constant_node "7" d' (constant_tree d')
  | Decimal.D8 d' => constant_node "8" d' (constant_tree d')
  | Decimal.D9 d' => constant_node "9" d' (constant_tree d')
  end.

(** The tree of the expression that is the constant [d] alone. *)
Definition literal_tree (d : Decimal.uint) : tree :=
  Node "expression" [Node "term" [Node "factor" [constant_tree d]]].

(** No digit of [d] is 0, except perhaps the last one. *)
Fixpoint zero_only_last (d : Decimal.uint) : bool :=
  match d with
  | Decimal.Nil => true
  | Decimal.D0 Decimal.Nil => true
  | Decimal.D0 _ => false
  | Decimal.D1 d' | Decimal.D2 d' | Decimal.D3 d' | Decimal.D4 d' | Decimal.D5 d' | Decimal.D6 d' | Decimal.D7 d' | Decimal.D8 d' | Decimal.D9 d' => zero_only_last d'
  end.

(** No digit of [d] is 0, except perhaps the first and the last one. *)
Definition inner_zero_free (d : Decimal.uint) : bool :=
  match d with
  | Decimal.Nil => true
  | Decimal.D0 d' | Decimal.D1 d' | Decimal.D2 d' | Decimal.D3 d' | Decimal.D4 d' | Decimal.D5 d' | Decimal.D6 d' | Decimal.D7 d' | Decimal.D8 d' | Decimal.D9 d' => zero_only_last d'
  end.

(** A result of the parser with its end position moved [k] tokens on. *)
Definition shift_result {A : Type} (k : nat) (r : option (result (nat * A)))
  : option (result (nat * A)) :=
  match r with
  | Some (Ok (j, a)) => Some (Ok (k + j, a))
  | Some (Raise e) => Some (Raise e)
  | None => None
  end.

(** The global variables [x], [y] and [z] are all bound to [int]s. *)
Definition int_environment (env : environment) : Prop :=
  forall name, In name ["x"; "y"; "z"] -> exists n, binding env name = Some (PyInt n).

(** What [evaluate] returns on a derivation tree of [part] without the
    division token: an operator other than [truediv], or an [int]. *)
Definition int_outcome (part : string) (r : result value) : Prop :=
  if String.eqb part "sumop" || String.eqb part "prodop"
  then exists f, r = Ok (Fun f) /\ f <> truediv
  else exists n, r = Ok (Num (PyInt n)).

(** Induction on trees with the hypothesis available for every part. *)
Section TreeInd.

Variable P : tree -> Prop.
Hypothesis P_leaf : forall token, P (Leaf token).
Hypothesis P_node : forall identifier parts, Forall P parts -> P (Node identifier parts).

Fixpoint tree_nested_ind (t : tree) : P t :=
  match t with
  | Leaf token => P_leaf token
  | Node identifier parts =>
      P_node identifier parts
        ((fix all (l : list tree) : Forall P l :=
            match l with
            | [] => Forall_nil P
            | t' :: l' => Forall_cons t' (tree_nested_ind t') (all l')
            end) parts)
  end.

End TreeInd.

(** ** Tactics *)

Ltac inv H := inversion H; subst; clear H.

Ltac length_eq :=
  subst; repeat (progress (simpl; rewrite ?length_app)); lia.

(** Steps through one call of [parse] in a goal. *)
Ltac enter_parse :=
  simpl; unfold parse_body; simpl; unfold parse_part; simpl.

Ltac known H :=
  rewrite H by (reflexivity || lia || eassumption); simpl.

(** ** Basic facts about slices *)

Lemma skipn_nth_error {A : Type} (l : list A) (i : nat) (a : A) :
  nth_error l i = Some a -> skipn i l = a :: skipn (i + 1) l.
Proof.
  revert i; induction l as [|b l IH]; intros [|i] H; simpl in *; try discriminate.
  - now inversion H.
  - now apply IH.
Qed.

Lemma nth_error_skipn_cons {A : Type} (l : list A) (i : nat) (a : A) (r : list A) :
  skipn i l = a :: r -> nth_error l i = Some a.
Proof.
  revert i; induction l as [|b l IH]; intros [|i] H; simpl in *; try discriminate.
  - now inversion H.
  - now apply IH.
Qed.

Lemma skipn_app_shift {A : Type} (l : list A) (i : nat) (a r : list A) :
  skipn i l = a ++ r -> skipn (i + List.length a) l = r.
Proof.
  intros H.
  rewrite Nat.add_comm, <- skipn_skipn, H.
  rewrite skipn_app, skipn_all, Nat.sub_diag. reflexivity.
Qed.

Lemma covers_nil tokens i : covers tokens i i [].
Proof. split; simpl; [lia | reflexivity]. Qed.

Lemma covers_app tokens i j k a b :
  covers tokens i j a -> covers tokens j k b -> covers tokens i k (a ++ b).
Proof.
  intros [Hj Ha] [Hk Hb]; split.
  - rewrite length_app; lia.
  - rewrite Ha, Hb, app_assoc; reflexivity.
Qed.

Lemma covers_firstn tokens j ts : covers tokens 0 j ts -> ts = firstn j tokens.
Proof.
  intros [Hj H]; simpl in *; subst j.
  rewrite H at 1. rewrite firstn_app, firstn_all, Nat.sub_diag.
  simpl; now rewrite app_nil_r.
Qed.

(** ** The parser's results do not depend on the budget *)

Section ParserFacts.

Variable tokens : list string.
Variable syntax : grammar.

Lemma parse_part_extends (p q : parser) :
  extends p q ->
  forall j part r,
    parse_part tokens syntax p j part = Some r ->
    parse_part tokens syntax q j part = Some r.
Proof.
  intros E j part r; unfold parse_part.
  destruct (mem part syntax); [apply E | trivial].
Qed.

Lemma parse_rule_extends (p q : parser) :
  extends p q ->
  forall rule i r,
    parse_rule tokens syntax p i rule = Some r ->
    parse_rule tokens syntax q i rule = Some r.
Proof.
  intros E rule; induction rule as [|part rule IH]; intros i r; simpl; trivial.
  destruct (parse_part tokens syntax p i part) as [[[i' el]|e]|] eqn:Hp;
    try discriminate.
  - rewrite (parse_part_extends p q E _ _ _ Hp).
    destruct (parse_rule tokens syntax p i' rule) as [r'|] eqn:Hr; try discriminate.
    rewrite (IH _ _ Hr). trivial.
  - rewrite (parse_part_extends p q E _ _ _ Hp). trivial.
Qed.

Lemma parse_alternatives_extends (p q : parser) :
  extends p q ->
  forall rules i identifier r,
    parse_alternatives tokens syntax p i identifier rules = Some r ->
    parse_alternatives tokens syntax q i identifier rules = Some r.
Proof.
  intros E rules; induction rules as [|rule rules IH]; intros i identifier r; simpl; trivial.
  destruct (parse_rule tokens syntax p i rule) as [r'|] eqn:Hr; try discriminate.
  rewrite (parse_rule_extends p q E _ _ _ Hr).
  destruct r' as [[i' parts]|e]; trivial.
  destruct (ParseError e); trivial. apply IH.
Qed.

Lemma parse_body_extends (p q : parser) :
  extends p q -> extends (parse_body tokens syntax p) (parse_body tokens syntax q).
Proof.
  intros E i identifier r; unfold parse_body.
  destruct (lookup syntax identifier); trivial.
  now apply parse_alternatives_extends.
Qed.

Lemma parse_fuel_step fuel :
  extends (parse_fuel tokens syntax fuel) (parse_fuel tokens syntax (S fuel)).
Proof.
  induction fuel as [|fuel IH]; intros i part r H.
  - discriminate.
  - simpl in H |- *. revert H. now apply parse_body_extends.
Qed.

Lemma parse_fuel_mono fuel fuel' :
  fuel <= fuel' ->
  extends (parse_fuel tokens syntax fuel) (parse_fuel tokens syntax fuel').
Proof.
  induction 1 as [|fuel' _ IH]; intros i part r H; trivial.
  apply parse_fuel_step, IH, H.
Qed.

End ParserFacts.

(** ** What a successful parse returns *)

Section ParserSound.

Variable tokens : list string.
Variable syntax : grammar.

Lemma parse_part_sound (p : parser) :
  sound tokens syntax p -> sound tokens syntax (parse_part tokens syntax p).
Proof.
  intros Hp i part j t; unfold parse_part.
  destruct (mem part syntax) eqn:Hm; [apply Hp|].
  destruct (nth_error tokens i) as [token|] eqn:Hn; try discriminate.
  destruct (String.eqb_spec part token) as [->|]; try discriminate.
  intros H; inversion H; subst; clear H. split.
  - now constructor.
  - split; simpl; [lia|]. now apply skipn_nth_error.
Qed.

Lemma parse_rule_sound (p : parser) :
  sound tokens syntax p ->
  forall rule i j parts,
    parse_rule tokens syntax p i rule = Some (Ok (j, parts)) ->
    Forall2 (conforms syntax) rule parts /\
    covers tokens i j (flat_map leaves parts).
Proof.
  intros Hp rule; induction rule as [|part rule IH]; intros i j parts; simpl.
  - intros H; inversion H; subst. split; [constructor | apply covers_nil].
  - destruct (parse_part tokens syntax p i part) as [[[i' el]|e]|] eqn:Hpart;
      try discriminate.
    destruct (parse_rule tokens syntax p i' rule) as [[[i'' parts']|e]|] eqn:Hrule;
      try discriminate.
    intros H; inversion H; subst; clear H.
    destruct (parse_part_sound p Hp _ _ _ _ Hpart) as [Hc Hs].
    destruct (IH _ _ _ Hrule) as [Hcs Hss].
    split; [now constructor | simpl; eapply covers_app; eauto].
Qed.

Lemma parse_alternatives_sound (p : parser) :
  sound tokens syntax p ->
  forall rules i identifier j t,
    parse_alternatives tokens syntax p i identifier rules = Some (Ok (j, t)) ->
    exists rule parts,
      In rule rules /\ t = Node identifier parts /\
      Forall2 (conforms syntax) rule parts /\
      covers tokens i j (flat_map leaves parts).
Proof.
  intros Hp rules; induction rules as [|rule rules IH]; intros i identifier j t; simpl;
    try discriminate.
  destruct (parse_rule tokens syntax p i rule) as [[[i' parts]|e]|] eqn:Hrule;
    try discriminate.
  - intros H; inversion H; subst; clear H.
    destruct (parse_rule_sound p Hp _ _ _ _ Hrule) as [Hc Hs].
    exists rule, parts; simpl; auto.
  - destruct (ParseError e); try discriminate.
    intros H. destruct (IH _ _ _ _ H) as (rule' & parts & Hin & rest).
    exists rule', parts; simpl; auto.
Qed.

Lemma parse_body_sound (p : parser) :
  sound tokens syntax p -> sound tokens syntax (parse_body tokens syntax p).
Proof.
  intros Hp i identifier j t; unfold parse_body.
  destruct (lookup syntax identifier) as [rules|] eqn:Hl; try discriminate.
  intros H.
  destruct (parse_alternatives_sound p Hp _ _ _ _ _ H)
    as (rule & parts & Hin & -> & Hc & Hs).
  split; [econstructor; eauto | exact Hs].
Qed.

Lemma parse_fuel_sound fuel : sound tokens syntax (parse_fuel tokens syntax fuel).
Proof.
  induction fuel as [|fuel IH]; [intros i part j t H; discriminate|].
  simpl. now apply parse_body_sound.
Qed.

(** A run of failed alternatives is skipped: the loop goes on with the
    alternatives that remain, at the position it was entered with. *)
Lemma parse_alternatives_skip (p : parser) i identifier failed rest :
  Forall (fun rule => exists e,
              parse_rule tokens syntax p i rule = Some (Raise e) /\
              ParseError e = true) failed ->
  parse_alternatives tokens syntax p i identifier (failed ++ rest) =
  parse_alternatives tokens syntax p i identifier rest.
Proof.
  induction 1 as [|rule failed (e & Hr & He) _ IH]; simpl; trivial.
  now rewrite Hr, He.
Qed.

(** An alternative whose first parts match up to [j] and whose next part
    raises [e] raises [e]: the position [j] is dropped with it. *)
Lemma parse_rule_fails_partway (p : parser) i j matched parts part todo e :
  parse_rule tokens syntax p i matched = Some (Ok (j, parts)) ->
  parse_part tokens syntax p j part = Some (Raise e) ->
  parse_rule tokens syntax p i (matched ++ part :: todo) = Some (Raise e).
Proof.
  revert i parts; induction matched as [|m matched IH]; intros i parts; simpl.
  - intros H; inversion H; subst. intros ->. reflexivity.
  - destruct (parse_part tokens syntax p i m) as [[[i' el]|e']|]; try discriminate.
    destruct (parse_rule tokens syntax p i' matched) as [[[i'' parts']|e']|] eqn:Hm;
      try discriminate.
    intros H; inversion H; subst; clear H. intros Hp.
    now rewrite (IH _ _ Hm Hp).
Qed.

End ParserSound.

(** ** The shipped grammar: its parser finds every derivation *)

Lemma nth_error_hd_skipn {A : Type} (l : list A) (i : nat) :
  nth_error l i = hd_error (skipn i l).
Proof.
  revert i; induction l as [|a l IH]; intros [|i]; simpl; auto.
Qed.

Lemma lookup_In syntax identifier rules :
  lookup syntax identifier = Some rules -> In (identifier, rules) syntax.
Proof.
  induction syntax as [|[k v] syntax IH]; simpl; try discriminate.
  destruct (String.eqb_spec identifier k) as [->|_].
  - intros H; inversion H; auto.
  - auto.
Qed.

Lemma conforms_terminal syntax part t :
  conforms syntax part t -> mem part syntax = false -> t = Leaf part.
Proof.
  intros [p Hp|identifier rules rule parts Hl _ _] Hm; trivial.
  unfold mem in Hm; rewrite Hl in Hm; discriminate.
Qed.

Lemma conforms_rule syntax identifier t :
  conforms syntax identifier t -> mem identifier syntax = true ->
  exists rules rule parts,
    t = Node identifier parts /\ lookup syntax identifier = Some rules /\
    In rule rules /\ Forall2 (conforms syntax) rule parts.
Proof.
  intros [p Hp|id rules rule parts Hl Hin Hf] Hm.
  - rewrite Hp in Hm; discriminate.
  - exists rules, rule, parts; auto.
Qed.

Section TerminalRules.

Variable tokens : list string.
Variable syntax : grammar.

(** The alternatives of a rule such as [sumop] or [digit] are one terminal
    each: the rule matches when the current token is one of them. *)
Lemma parse_alternatives_terminals (p : parser) i identifier terminals :
  Forall (fun s => mem s syntax = false) terminals ->
  parse_alternatives tokens syntax p i identifier (map (fun s => [s]) terminals) =
  match hd_error (skipn i tokens) with
  | Some token =>
      if existsb (fun s => String.eqb s token) terminals
      then Some (Ok (i + 1, Node identifier [Leaf token]))
      else Some (Raise ValueError)
  | None => Some (Raise ValueError)
  end.
Proof.
  induction 1 as [|s terminals Hs _ IH]; simpl.
  - now destruct (hd_error (skipn i tokens)).
  - unfold parse_part. rewrite Hs, nth_error_hd_skipn.
    destruct (hd_error (skipn i tokens)) as [token|]; simpl; trivial.
    destruct (String.eqb s token); simpl; trivial.
Qed.

End TerminalRules.

Lemma next_not_in_app l1 l2 rest :
  next_not_in (l1 ++ l2) rest = next_not_in l1 rest && next_not_in l2 rest.
Proof.
  destruct rest as [|token rest]; simpl; trivial.
  now rewrite existsb_app, negb_orb.
Qed.

Section Shipped.

Variable tokens : list string.

Lemma terminal_rule_fails fuel i identifier rules rest :
  lookup bnf_syntax identifier = Some rules ->
  rules = map (fun s => [s]) (List.concat rules) ->
  forallb (fun s => negb (mem s bnf_syntax)) (List.concat rules) = true ->
  skipn i tokens = rest ->
  next_not_in (List.concat rules) rest = true ->
  1 <= fuel ->
  parse_fuel tokens bnf_syntax fuel i identifier = Some (Raise ValueError).
Proof.
  intros Hl Hr Hm Hs Hn Hfuel. destruct fuel as [|fuel]; [lia|]. simpl. unfold parse_body. rewrite Hl, Hr.
  rewrite parse_alternatives_terminals.
  - rewrite Hs. destruct rest as [|token rest]; simpl in *; trivial.
    now rewrite (proj1 (negb_true_iff _) Hn).
  - apply Forall_forall; intros s Hin.
    rewrite forallb_forall in Hm. now apply negb_true_iff, Hm.
Qed.

Lemma terminal_rule_matches fuel i identifier rules token rest :
  lookup bnf_syntax identifier = Some rules ->
  rules = map (fun s => [s]) (List.concat rules) ->
  forallb (fun s => negb (mem s bnf_syntax)) (List.concat rules) = true ->
  skipn i tokens = token :: rest ->
  existsb (fun s => String.eqb s token) (List.concat rules) = true ->
  1 <= fuel ->
  parse_fuel tokens bnf_syntax fuel i identifier =
  Some (Ok (i + 1, Node identifier [Leaf token])).
Proof.
  intros Hl Hr Hm Hs Hn Hfuel. destruct fuel as [|fuel]; [lia|]. simpl. unfold parse_body. rewrite Hl, Hr.
  rewrite parse_alternatives_terminals.
  - rewrite Hs. simpl. now rewrite Hn.
  - apply Forall_forall; intros s Hin.
    rewrite forallb_forall in Hm. now apply negb_true_iff, Hm.
Qed.

Lemma constant_fails fuel i rest :
  skipn i tokens = rest ->
  next_not_in digits rest = true ->
  2 <= fuel ->
  parse_fuel tokens bnf_syntax fuel i "constant" = Some (Raise ValueError).
Proof.
  intros Hs Hn Hfuel. destruct fuel as [|fuel]; [lia|].
  assert (Hd : parse_fuel tokens bnf_syntax fuel i "digit" = Some (Raise ValueError))
    by (eapply terminal_rule_fails;
        [reflexivity | reflexivity | reflexivity | exact Hs | exact Hn | lia]).
  simpl; unfold parse_body; simpl; unfold parse_part; simpl. now rewrite Hd.
Qed.

End Shipped.

Ltac next_token H :=
  rewrite (nth_error_skipn_cons _ _ _ _ H); simpl.

(** Splits the hypotheses on the parts of a node of the shipped grammar. *)
Ltac split_parts :=
  repeat match goal with
    | H : Forall2 _ (_ :: _) _ |- _ => inv H
    | H : Forall2 _ [] _ |- _ => inv H
    | H : Forall _ (_ :: _) |- _ => inv H
    | H : Forall _ [] |- _ => clear H
    | H : conforms bnf_syntax ?s ?t |- _ =>
        apply conforms_terminal in H; [subst t | reflexivity]
    end.

Section Alternatives.

Variable tokens : list string.

Lemma found_expression_3 i j k l t0 t1 t2 :
  found tokens i j "term" t0 ->
  found tokens j k "sumop" t1 ->
  found tokens k l "expression" t2 ->
  found tokens i l "expression" (Node "expression" [t0; t1; t2]).
Proof.
  intros [n0 H0] [n1 H1] [n2 H2]. exists (S (n0 + n1 + n2)).
  intros [|fuel] Hfuel; [lia|]. enter_parse.
  known H0. known H1. known H2. reflexivity.
Qed.

Lemma found_expression_1 i j t0 rest :
  found tokens i j "term" t0 ->
  skipn j tokens = rest ->
  next_not_in ["+"; "-"] rest = true ->
  found tokens i j "expression" (Node "expression" [t0]).
Proof.
  intros [n0 H0] Hs Hn. exists (S (S n0)).
  intros [|fuel] Hfuel; [lia|]. enter_parse.
  known H0.
  rewrite (terminal_rule_fails tokens fuel j "sumop" _ rest eq_refl eq_refl eq_refl Hs Hn)
    by lia.
  reflexivity.
Qed.

Lemma found_term_3 i j k l t0 t1 t2 :
  found tokens i j "factor" t0 ->
  found tokens j k "prodop" t1 ->
  found tokens k l "term" t2 ->
  found tokens i l "term" (Node "term" [t0; t1; t2]).
Proof.
  intros [n0 H0] [n1 H1] [n2 H2]. exists (S (n0 + n1 + n2)).
  intros [|fuel] Hfuel; [lia|]. enter_parse.
  known H0. known H1. known H2. reflexivity.
Qed.

Lemma found_term_1 i j t0 rest :
  found tokens i j "factor" t0 ->
  skipn j tokens = rest ->
  next_not_in ["*"; "/"] rest = true ->
  found tokens i j "term" (Node "term" [t0]).
Proof.
  intros [n0 H0] Hs Hn. exists (S (S n0)).
  intros [|fuel] Hfuel; [lia|]. enter_parse.
  known H0.
  rewrite (terminal_rule_fails tokens fuel j "prodop" _ rest eq_refl eq_refl eq_refl Hs Hn)
    by lia.
  reflexivity.
Qed.

Lemma found_factor_constant i j t0 :
  found tokens i j "constant" t0 ->
  found tokens i j "factor" (Node "factor" [t0]).
Proof.
  intros [n0 H0]. exists (S n0).
  intros [|fuel] Hfuel; [lia|]. enter_parse.
  known H0. reflexivity.
Qed.

Lemma found_factor_variable i j t0 rest :
  skipn i tokens = rest ->
  next_not_in digits rest = true ->
  found tokens i j "variable" t0 ->
  found tokens i j "factor" (Node "factor" [t0]).
Proof.
  intros Hs Hn [n0 H0]. exists (S (S (S n0))).
  intros [|fuel] Hfuel; [lia|]. enter_parse.
  rewrite (constant_fails tokens fuel i rest Hs Hn) by lia. simpl.
  known H0. reflexivity.
Qed.

Lemma found_factor_parentheses i j t rest rest' :
  skipn i tokens = "(" :: rest ->
  found tokens (i + 1) j "expression" t ->
  skipn j tokens = ")" :: rest' ->
  found tokens i (j + 1) "factor" (Node "factor" [Leaf "("; t; Leaf ")"]).
Proof.
  intros Hs [n0 H0] Hs'. exists (S (S (S n0))).
  intros [|fuel] Hfuel; [lia|]. enter_parse.
  rewrite (constant_fails tokens fuel i _ Hs eq_refl) by lia. simpl.
  rewrite (terminal_rule_fails tokens fuel i "variable" _ _ eq_refl eq_refl eq_refl Hs eq_refl)
    by lia.
  simpl. next_token Hs. known H0. next_token Hs'. reflexivity.
Qed.

Lemma found_constant_2 i j k t0 t1 :
  found tokens i j "digit" t0 ->
  found tokens j k "constant" t1 ->
  found tokens i k "constant" (Node "constant" [t0; t1]).
Proof.
  intros [n0 H0] [n1 H1]. exists (S (n0 + n1)).
  intros [|fuel] Hfuel; [lia|]. enter_parse.
  known H0. known H1. reflexivity.
Qed.

Lemma found_constant_1 i j t0 rest :
  found tokens i j "digit" t0 ->
  skipn j tokens = rest ->
  next_not_in digits rest = true ->
  found tokens i j "constant" (Node "constant" [t0]).
Proof.
  intros [n0 H0] Hs Hn. exists (S (S (S n0))).
  intros [|fuel] Hfuel; [lia|]. enter_parse.
  known H0.
  rewrite (constant_fails tokens fuel j rest Hs Hn) by lia. simpl.
  reflexivity.
Qed.

End Alternatives.

Lemma next_not_in_nil rest : next_not_in [] rest = true.
Proof. now destruct rest. Qed.

Lemma stops_expression rest :
  next_not_in (stops "expression") rest = true ->
  next_not_in ["+"; "-"] rest = true /\ next_not_in (stops "term") rest = true.
Proof.
  change (stops "expression") with (["+"; "-"] ++ stops "term").
  rewrite next_not_in_app. apply andb_true_iff.
Qed.

Lemma stops_term rest :
  next_not_in (stops "term") rest = true ->
  next_not_in ["*"; "/"] rest = true /\ next_not_in digits rest = true.
Proof.
  change (stops "term") with (["*"; "/"] ++ digits).
  rewrite next_not_in_app. apply andb_true_iff.
Qed.

(** The derivation trees of [sumop], [prodop], [variable] and [digit]. *)
Lemma conforms_terminal_rule identifier rules t :
  conforms bnf_syntax identifier t ->
  lookup bnf_syntax identifier = Some rules ->
  rules = map (fun s => [s]) (List.concat rules) ->
  forallb (fun s => negb (mem s bnf_syntax)) (List.concat rules) = true ->
  exists token, In token (List.concat rules) /\ t = Node identifier [Leaf token].
Proof.
  intros Hc Hl Hr Hm.
  assert (Hmem : mem identifier bnf_syntax = true) by (unfold mem; now rewrite Hl).
  destruct (conforms_rule _ _ _ Hc Hmem) as (rules' & rule & parts & -> & Hl' & Hin & Hf).
  rewrite Hl in Hl'; inv Hl'. rewrite Hr in Hin.
  apply in_map_iff in Hin as (token & <- & Hin).
  rewrite forallb_forall in Hm. specialize (Hm _ Hin). apply negb_true_iff in Hm.
  inv Hf. inv H3. apply conforms_terminal in H1; trivial. subst.
  exists token; auto.
Qed.

Lemma parse_complete t :
  forall part, conforms bnf_syntax part t -> mem part bnf_syntax = true ->
  forall tokens i j rest,
    skipn i tokens = leaves t ++ rest ->
    j = i + List.length (leaves t) ->
    next_not_in (stops part) rest = true ->
    found tokens i j part t.
Proof.
  induction t as [token|identifier parts IH] using tree_nested_ind;
    intros part Hc Hm tokens i j rest Hs Hj Hn.
  - destruct (conforms_rule _ _ _ Hc Hm) as (? & ? & ? & ? & _); discriminate.
  - destruct (conforms_rule _ _ _ Hc Hm) as (rules & rule & parts' & Heq & Hl & Hin & Hf).
    inv Heq. clear Hc Hm. apply lookup_In in Hl. simpl in Hl.
    repeat (destruct Hl as [Hl|Hl]; [inv Hl|]); try contradiction;
      simpl in Hin; repeat (destruct Hin as [Hin|Hin]; [subst rule|]); try contradiction.
    all: split_parts.
    all: try (simpl in Hs |- *; exists 1; intros fuel Hfuel;
              eapply terminal_rule_matches; eauto; reflexivity).
    all: simpl in Hs; rewrite ?app_nil_r, <- ?app_assoc in Hs.
    + (* expression: term sumop expression *)
      match goal with
      | Ha : conforms _ "term" ?a, Hb : conforms _ "sumop" ?b,
        Hc : conforms _ "expression" ?c,
        IHa : forall part, conforms _ part ?a -> _,
        IHb : forall part, conforms _ part ?b -> _,
        IHc : forall part, conforms _ part ?c -> _ |- _ =>
          destruct (conforms_terminal_rule _ _ _ Hb eq_refl eq_refl eq_refl)
            as (token & Htoken & Eb);
          pose proof (skipn_app_shift _ _ _ _ Hs) as Hs1;
          pose proof (skipn_app_shift _ _ _ _ Hs1) as Hs2;
          pose proof (IHa "term" Ha eq_refl _ _ _ _ Hs eq_refl) as Fa;
          pose proof (IHb "sumop" Hb eq_refl _ _ _ _ Hs1 eq_refl (next_not_in_nil _)) as Fb;
          pose proof (IHc "expression" Hc eq_refl _ _ _ _ Hs2 eq_refl Hn) as Fc
      end.
      match goal with
      | |- found _ _ ?j _ _ =>
          match type of Fc with
          | found _ _ ?l _ _ => replace j with l by length_eq
          end
      end.
      eapply found_expression_3; [apply Fa | exact Fb | exact Fc].
      rewrite Eb; simpl in Htoken |- *.
      destruct Htoken as [<-|[<-|[]]]; reflexivity.
    + (* expression: term *)
      match goal with
      | Ha : conforms _ "term" ?a, IHa : forall part, conforms _ part ?a -> _ |- _ =>
          destruct (stops_expression _ Hn) as [Hn1 Hn2];
          pose proof (IHa "term" Ha eq_refl _ _ _ _ Hs eq_refl Hn2) as Fa;
          pose proof (skipn_app_shift _ _ _ _ Hs) as Hs1
      end.
      match goal with
      | |- found _ _ ?j _ _ =>
          match type of Fa with
          | found _ _ ?l _ _ => replace j with l by length_eq
          end
      end.
      eapply found_expression_1; eassumption.
    + (* term: factor prodop term *)
      match goal with
      | Ha : conforms _ "factor" ?a, Hb : conforms _ "prodop" ?b,
        Hc : conforms _ "term" ?c,
        IHa : forall part, conforms _ part ?a -> _,
        IHb : forall part, conforms _ part ?b -> _,
        IHc : forall part, conforms _ part ?c -> _ |- _ =>
          destruct (conforms_terminal_rule _ _ _ Hb eq_refl eq_refl eq_refl)
            as (token & Htoken & Eb);
          pose proof (skipn_app_shift _ _ _ _ Hs) as Hs1;
          pose proof (skipn_app_shift _ _ _ _ Hs1) as Hs2;
          pose proof (IHa "factor" Ha eq_refl _ _ _ _ Hs eq_refl) as Fa;
          pose proof (IHb "prodop" Hb eq_refl _ _ _ _ Hs1 eq_refl (next_not_in_nil _)) as Fb;
          pose proof (IHc "term" Hc eq_refl _ _ _ _ Hs2 eq_refl Hn) as Fc
      end.
      match goal with
      | |- found _ _ ?j _ _ =>
          match type of Fc with
          | found _ _ ?l _ _ => replace j with l by length_eq
          end
      end.
      eapply found_term_3; [apply Fa | exact Fb | exact Fc].
      rewrite Eb; simpl in Htoken |- *.
      destruct Htoken as [<-|[<-|[]]]; reflexivity.
    + (* term: factor *)
      match goal with
      | Ha : conforms _ "factor" ?a, IHa : forall part, conforms _ part ?a -> _ |- _ =>
          destruct (stops_term _ Hn) as [Hn1 Hn2];
          pose proof (IHa "factor" Ha eq_refl _ _ _ _ Hs eq_refl Hn2) as Fa;
          pose proof (skipn_app_shift _ _ _ _ Hs) as Hs1
      end.
      match goal with
      | |- found _ _ ?j _ _ =>
          match type of Fa with
          | found _ _ ?l _ _ => replace j with l by length_eq
          end
      end.
      eapply found_term_1; eassumption.
    + (* factor: constant *)
      match goal with
      | Ha : conforms _ "constant" ?a, IHa : forall part, conforms _ part ?a -> _ |- _ =>
          pose proof (IHa "constant" Ha eq_refl _ _ _ _ Hs eq_refl Hn) as Fa
      end.
      match goal with
      | |- found _ _ ?j _ _ =>
          match type of Fa with
          | found _ _ ?l _ _ => replace j with l by length_eq
          end
      end.
      now apply found_factor_constant.
    + (* factor: variable *)
      match goal with
      | Ha : conforms _ "variable" ?a, IHa : forall part, conforms _ part ?a -> _ |- _ =>
          destruct (conforms_terminal_rule _ _ _ Ha eq_refl eq_refl eq_refl)
            as (token & Htoken & Ea);
          pose proof (IHa "variable" Ha eq_refl _ _ _ _ Hs eq_refl (next_not_in_nil _)) as Fa
      end.
      match goal with
      | |- found _ _ ?j _ _ =>
          match type of Fa with
          | found _ _ ?l _ _ => replace j with l by length_eq
          end
      end.
      eapply found_factor_variable; [exact Hs | | exact Fa].
      rewrite Ea; simpl in Htoken |- *.
      destruct Htoken as [<-|[<-|[<-|[]]]]; reflexivity.
    + (* factor: ( expression ) *)
      match goal with
      | Ha : conforms _ "expression" ?a, IHa : forall part, conforms _ part ?a -> _ |- _ =>
          pose proof (skipn_app_shift _ _ ["("] _ Hs) as Hs1;
          pose proof (skipn_app_shift _ _ _ _ Hs1) as Hs2;
          pose proof (IHa "expression" Ha eq_refl _ _ _ _ Hs1 eq_refl eq_refl) as Fa
      end.
      match goal with
      | |- found _ _ ?j _ _ =>
          match type of Fa with
          | found _ _ ?l _ _ => replace j with (l + 1) by length_eq
          end
      end.
      eapply found_factor_parentheses; eassumption.
    + (* constant: digit constant *)
      match goal with
      | Ha : conforms _ "digit" ?a, Hb : conforms _ "constant" ?b,
        IHa : forall part, conforms _ part ?a -> _,
        IHb : forall part, conforms _ part ?b -> _ |- _ =>
          pose proof (skipn_app_shift _ _ _ _ Hs) as Hs1;
          pose proof (IHa "digit" Ha eq_refl _ _ _ _ Hs eq_refl (next_not_in_nil _)) as Fa;
          pose proof (IHb "constant" Hb eq_refl _ _ _ _ Hs1 eq_refl Hn) as Fb
      end.
      match goal with
      | |- found _ _ ?j _ _ =>
          match type of Fb with
          | found _ _ ?l _ _ => replace j with l by length_eq
          end
      end.
      eapply found_constant_2; eassumption.
    + (* constant: digit *)
      match goal with
      | Ha : conforms _ "digit" ?a, IHa : forall part, conforms _ part ?a -> _ |- _ =>
          pose proof (skipn_app_shift _ _ _ _ Hs) as Hs1;
          pose proof (IHa "digit" Ha eq_refl _ _ _ _ Hs eq_refl (next_not_in_nil _)) as Fa
      end.
      match goal with
      | |- found _ _ ?j _ _ =>
          match type of Fa with
          | found _ _ ?l _ _ => replace j with l by length_eq
          end
      end.
      eapply found_constant_1; eassumption.
Qed.

(** ** The evaluator on derivation trees of the shipped grammar *)

Lemma arith_not_TypeError op a b : arith op a b <> Raise TypeError.
Proof.
  assert (F : forall n, float_of_int n <> Raise TypeError).
  { intros n; unfold float_of_int.
    destruct (binary_normalize prec emax n 0 false); discriminate. }
  assert (D : forall x y, int_truediv x y <> Raise TypeError).
  { intros x y; unfold int_truediv. destruct (Z.eqb y 0); try discriminate.
    match goal with |- context [SFdiv ?p ?e ?u ?v] => destruct (SFdiv p e u v) end;
      discriminate. }
  destruct op, a as [x|x], b as [y|y]; simpl; try discriminate;
    try (specialize (D x y); destruct (int_truediv x y); simpl; congruence);
    try (specialize (F x); destruct (float_of_int x); simpl; try congruence);
    try (specialize (F y); destruct (float_of_int y); simpl; try congruence);
    try discriminate;
    match goal with
    | |- context [is_zero ?f] => destruct (is_zero f); discriminate
    end.
Qed.

Lemma global_well_typed env name :
  match global env name with
  | Ok (Num _) => True
  | Ok (Fun _) => False
  | Raise e => e = NameError
  end.
Proof. unfold global. now destruct (binding env name). Qed.

Lemma int_raises s e : int s = Raise e -> e = ValueError.
Proof.
  unfold int.
  match goal with |- context [let '(_, _) := ?m in _] => destruct m as [negative ds] end.
  destruct (int_digits ds 0 false); intros H; now inversion H.
Qed.

Lemma numjoin_not_TypeError a b :
  match numjoin a b with
  | Ok (Num _) => True
  | Ok (Fun _) => False
  | Raise e => e <> TypeError
  end.
Proof.
  destruct a as [[x|x]|f], b as [[y|y]|g]; simpl; try discriminate.
  destruct (int (str x ++ str y)) as [n|e] eqn:H; simpl; trivial.
  apply int_raises in H; subst; discriminate.
Qed.

Lemma call_well_typed f a b :
  (exists op, f = Ok (Fun op)) ->
  well_typed "term" a -> well_typed "term" b ->
  well_typed "term" (f' <- f;; a' <- a;; b' <- b;; call f' a' b').
Proof.
  intros [op ->] Ha Hb; unfold well_typed in *; simpl in *.
  destruct a as [[x|?]|e]; simpl; trivial; try contradiction.
  destruct b as [[y|?]|e]; simpl; trivial; try contradiction.
  pose proof (arith_not_TypeError op x y) as H.
  destruct (arith op x y); simpl; trivial.
  congruence.
Qed.

Lemma evaluate_factor_1 env identifier parts :
  identifier = "constant" \/ identifier = "variable" ->
  evaluate env (Node "factor" [Node identifier parts]) =
  evaluate env (Node identifier parts).
Proof. intros [->| ->]; reflexivity. Qed.

Lemma evaluate_factor_3 env p0 parts p2 :
  evaluate env (Node "factor" [p0; Node "expression" parts; p2]) =
  evaluate env (Node "expression" parts).
Proof. reflexivity. Qed.

Lemma conforms_node_inv part t :
  conforms bnf_syntax part t -> mem part bnf_syntax = true ->
  exists parts, t = Node part parts.
Proof.
  intros Hc Hm. destruct (conforms_rule _ _ _ Hc Hm) as (? & ? & parts & -> & _).
  now exists parts.
Qed.

Lemma evaluate_well_typed env t :
  forall part, conforms bnf_syntax part t -> mem part bnf_syntax = true ->
  well_typed part (evaluate env t).
Proof.
  induction t as [token|identifier parts IH] using tree_nested_ind;
    intros part Hc Hm.
  - destruct (conforms_rule _ _ _ Hc Hm) as (? & ? & ? & ? & _); discriminate.
  - destruct (conforms_rule _ _ _ Hc Hm) as (rules & rule & parts' & Heq & Hl & Hin & Hf).
    inv Heq. clear Hc Hm. apply lookup_In in Hl. simpl in Hl.
    repeat (destruct Hl as [Hl|Hl]; [inv Hl|]); try contradiction;
      simpl in Hin; repeat (destruct Hin as [Hin|Hin]; [subst rule|]); try contradiction.
    all: split_parts.
    all: try (simpl; unfold well_typed; simpl; eauto; fail).
    all: match goal with |- well_typed _ ?r => change (well_typed "term" r) end.
    all: repeat match goal with
           | Ha : conforms _ ?s ?a, IHa : forall part, conforms _ part ?a -> _ |- _ =>
               pose proof (IHa s Ha eq_refl); clear IHa
           end.
    + now apply call_well_typed.
    + assumption.
    + now apply call_well_typed.
    + assumption.
    + match goal with
      | Ha : conforms _ "constant" ?a |- _ =>
          destruct (conforms_node_inv _ _ Ha eq_refl) as [ps ->]
      end.
      rewrite evaluate_factor_1; auto.
    + match goal with
      | Ha : conforms _ "variable" ?a |- _ =>
          destruct (conforms_node_inv _ _ Ha eq_refl) as [ps ->]
      end.
      rewrite evaluate_factor_1; auto.
    + match goal with
      | Ha : conforms _ "expression" ?a |- _ =>
          destruct (conforms_node_inv _ _ Ha eq_refl) as [ps ->]
      end.
      rewrite evaluate_factor_3; auto.
    + pose proof (global_well_typed env "x") as G. simpl; unfold well_typed; simpl.
      destruct (global env "x") as [[?|?]|?]; trivial; now subst.
    + pose proof (global_well_typed env "y") as G. simpl; unfold well_typed; simpl.
      destruct (global env "y") as [[?|?]|?]; trivial; now subst.
    + pose proof (global_well_typed env "z") as G. simpl; unfold well_typed; simpl.
      destruct (global env "z") as [[?|?]|?]; trivial; now subst.
    + simpl.
      match goal with
      | Ha : well_typed "digit" ?ra, Hb : well_typed "constant" ?rb |- _ =>
          unfold well_typed in Ha, Hb |- *; simpl in Ha, Hb |- *;
          destruct ra as [[n0|?]|?]; simpl; trivial; try contradiction;
          destruct rb as [[n1|?]|?]; simpl; trivial; try contradiction
      end.
      apply (numjoin_not_TypeError (Num n0) (Num n1)).
    + assumption.
Qed.

(** ** Budgets of the entry points *)

Lemma parse_mono fuel fuel' tokens i identifier syntax r :
  fuel <= fuel' ->
  parse fuel tokens i identifier syntax = Some r ->
  parse fuel' tokens i identifier syntax = Some r.
Proof. intros Hle H. exact (parse_fuel_mono tokens syntax fuel fuel' Hle _ _ _ H). Qed.

Lemma parse_expression_mono fuel fuel' tokens r :
  fuel <= fuel' ->
  parse_expression fuel tokens = Some r ->
  parse_expression fuel' tokens = Some r.
Proof.
  unfold parse_expression; intros Hle.
  destruct (parse fuel tokens 0 "expression" bnf_syntax) as [r0|] eqn:H; try discriminate.
  now rewrite (parse_mono _ _ _ _ _ _ _ Hle H).
Qed.

Lemma run_mono fuel fuel' env s r :
  fuel <= fuel' -> run fuel env s = Some r -> run fuel' env s = Some r.
Proof.
  unfold run; intros Hle.
  destruct (parse_expression fuel (tokens_of s)) as [r0|] eqn:H; try discriminate.
  now rewrite (parse_expression_mono _ _ _ _ Hle H).
Qed.

Lemma covers_bound tokens j ts : covers tokens 0 j ts -> j <= List.length tokens.
Proof.
  intros [Hj H]; simpl in *. apply (f_equal (@List.length string)) in H.
  rewrite length_app in H. lia.
Qed.

(** ** Trailing input (C1) *)

(** C1, as the specification states it, fails: [parse_expression("1+2)")]
    does not reject its input.  The root rule matches the prefix ["1+2"], the
    end position 3 is less than the length 4, and the tree of the prefix is
    returned; no budget makes the call raise. *)
Lemma parse_expression_accepts_trailing_input :
  parse_expression 20 (tokens_of "1+2)") = Some (Ok tree_1_plus_2) /\
  parse 20 (tokens_of "1+2)") 0 "expression" bnf_syntax = Some (Ok (3, tree_1_plus_2)) /\
  List.length (tokens_of "1+2)") = 4 /\
  (forall fuel e, parse_expression fuel (tokens_of "1+2)") <> Some (Raise e)).
Proof.
  assert (H : parse_expression 20 (tokens_of "1+2)") = Some (Ok tree_1_plus_2))
    by reflexivity.
  repeat split; trivial.
  intros fuel e He.
  pose proof (parse_expression_mono _ _ _ _ (Nat.le_max_l 20 fuel) H) as H1.
  pose proof (parse_expression_mono _ _ _ _ (Nat.le_max_r 20 fuel) He) as H2.
  congruence.
Qed.

(** C1, amended: [parse_expression] does not compare the end position with
    the length of the token sequence.  Whenever the root rule matches from
    position 0, whatever the end position [j], [parse_expression] returns the
    tree; that tree is a derivation tree of [expression] whose leaves are
    the consumed prefix [tokens[0:j]], and the tokens from [j] on are
    ignored. *)
Theorem parse_expression_returns_prefix_tree fuel tokens j t :
  parse fuel tokens 0 "expression" bnf_syntax = Some (Ok (j, t)) ->
  parse_expression fuel tokens = Some (Ok t) /\
  conforms bnf_syntax "expression" t /\
  leaves t = firstn j tokens /\
  j <= List.length tokens.
Proof.
  intros H. unfold parse_expression; rewrite H. split; trivial.
  destruct (parse_fuel_sound tokens bnf_syntax fuel _ _ _ _ H) as [Hc Hs].
  split; trivial. split.
  - now apply covers_firstn.
  - eapply covers_bound; eauto.
Qed.

(** The amended C1 at ["1+2)"]: the tree of ["1+2"] is returned. *)
Lemma parse_expression_returns_prefix_tree_witness :
  parse_expression 20 (tokens_of "1+2)") = Some (Ok tree_1_plus_2) /\
  conforms bnf_syntax "expression" tree_1_plus_2 /\
  leaves tree_1_plus_2 = firstn 3 (tokens_of "1+2)") /\
  3 <= List.length (tokens_of "1+2)").
Proof.
  apply (parse_expression_returns_prefix_tree 20 (tokens_of "1+2)") 3 tree_1_plus_2).
  reflexivity.
Defined.

(** ** Backtracking (C2) *)

(** C2: when an alternative fails partway through -- its first parts
    [matched] were read from [i] up to a later position [j], and the next
    part raises an exception of [ParseError] there -- and likewise every
    alternative in [failed] before it, [parse] goes on with the alternatives
    that remain from the position [i] it was called with: [j] is not seen
    again.  Whatever is then returned is a tree whose leaves start at [i]. *)
Theorem backtracking_restores_position
  fuel tokens syntax i j identifier failed matched part todo later parts e :
  lookup syntax identifier = Some (failed ++ (matched ++ part :: todo) :: later) ->
  Forall (fun rule => exists e',
              parse_rule tokens syntax (parse_fuel tokens syntax fuel) i rule
              = Some (Raise e') /\ ParseError e' = true) failed ->
  parse_rule tokens syntax (parse_fuel tokens syntax fuel) i matched = Some (Ok (j, parts)) ->
  parse_part tokens syntax (parse_fuel tokens syntax fuel) j part = Some (Raise e) ->
  ParseError e = true ->
  parse (S fuel) tokens i identifier syntax =
  parse_alternatives tokens syntax (parse_fuel tokens syntax fuel) i identifier later /\
  forall k t, parse (S fuel) tokens i identifier syntax = Some (Ok (k, t)) ->
              covers tokens i k (leaves t).
Proof.
  intros Hl Hfailed Hmatched Hpart He. split.
  - unfold parse; simpl; unfold parse_body; rewrite Hl.
    rewrite parse_alternatives_skip by exact Hfailed. simpl.
    rewrite (parse_rule_fails_partway _ _ _ _ _ _ _ _ _ _ Hmatched Hpart).
    now rewrite He.
  - intros k t H. exact (proj2 (parse_fuel_sound tokens syntax (S fuel) _ _ _ _ H)).
Qed.

(** C2 on the grammar [s ::= a b c | a b d] and the tokens [a b d]: the first
    alternative reads two tokens and fails on the third, the second one is
    tried from position 0 and matches all three. *)
Lemma backtracking_restores_position_witness :
  let syntax := [("s", [["a"; "b"; "c"]; ["a"; "b"; "d"]])] in
  let tokens := ["a"; "b"; "d"] in
  parse_rule tokens syntax (parse_fuel tokens syntax 0) 0 ["a"; "b"]
  = Some (Ok (2, [Leaf "a"; Leaf "b"])) /\
  parse_part tokens syntax (parse_fuel tokens syntax 0) 2 "c" = Some (Raise ValueError) /\
  (parse 1 tokens 0 "s" syntax =
   parse_alternatives tokens syntax (parse_fuel tokens syntax 0) 0 "s" [["a"; "b"; "d"]] /\
   (forall k t, parse 1 tokens 0 "s" syntax = Some (Ok (k, t)) ->
                covers tokens 0 k (leaves t))) /\
  parse 1 tokens 0 "s" syntax = Some (Ok (3, Node "s" [Leaf "a"; Leaf "b"; Leaf "d"])).
Proof.
  split; [reflexivity|]. split; [reflexivity|]. split; [|reflexivity].
  exact (backtracking_restores_position 0 ["a"; "b"; "d"]
           [("s", [["a"; "b"; "c"]; ["a"; "b"; "d"]])] 0 2 "s" [] ["a"; "b"] "c" []
           [["a"; "b"; "d"]] [Leaf "a"; Leaf "b"] ValueError
           eq_refl (Forall_nil _) eq_refl eq_refl eq_refl).
Defined.

(** ** First alternative wins (C3) *)

(** C3: the alternatives are tried in the order of the grammar and the first
    one that matches its whole sequence gives the result: when the
    alternatives [failed] before [rule] fail and [rule] matches from [i] up
    to [j] with the parts [parts], [parse] returns [(j, (identifier, parts))]
    whatever the later alternatives [later] would match, and it returns it
    under every budget that is large enough. *)
Theorem first_alternative_wins
  fuel fuel' tokens syntax i j identifier failed rule later parts :
  lookup syntax identifier = Some (failed ++ rule :: later) ->
  Forall (fun r => exists e,
              parse_rule tokens syntax (parse_fuel tokens syntax fuel) i r
              = Some (Raise e) /\ ParseError e = true) failed ->
  parse_rule tokens syntax (parse_fuel tokens syntax fuel) i rule = Some (Ok (j, parts)) ->
  fuel < fuel' ->
  parse fuel' tokens i identifier syntax = Some (Ok (j, Node identifier parts)).
Proof.
  intros Hl Hfailed Hrule Hlt.
  apply (parse_mono (S fuel)); [lia|].
  unfold parse; simpl; unfold parse_body; rewrite Hl.
  rewrite parse_alternatives_skip by exact Hfailed. simpl.
  now rewrite Hrule.
Qed.

(** C3 on the grammar [s ::= b | a | a b] and the tokens [a b]: the second
    alternative is the first that matches, and its tree is returned although
    the third one matches too, and more. *)
Lemma first_alternative_wins_witness :
  parse 5 ["a"; "b"] 0 "s" [("s", [["b"]; ["a"]; ["a"; "b"]])] =
  Some (Ok (1, Node "s" [Leaf "a"])).
Proof.
  apply (first_alternative_wins 0 5 ["a"; "b"] [("s", [["b"]; ["a"]; ["a"; "b"]])]
           0 1 "s" [["b"]] ["a"] [["a"; "b"]] [Leaf "a"]).
  - reflexivity.
  - constructor; [|constructor]. exists ValueError. split; reflexivity.
  - reflexivity.
  - lia.
Defined.

(** ** Completeness on the language of the grammar (C4) *)

(** C4: for every token sequence [s] in the language of the root rule
    [expression] of the shipped grammar (every Python string is the sequence
    [tokens_of] of its characters), [parse_expression] succeeds under every
    budget from some [n] on: the root rule matches up to the end of [s], and
    the leaves of the returned tree, left to right, are exactly [s]. *)
Theorem parse_expression_complete s :
  in_language bnf_syntax "expression" s ->
  exists n t,
    (forall fuel, n <= fuel ->
       parse fuel s 0 "expression" bnf_syntax = Some (Ok (List.length s, t)) /\
       parse_expression fuel s = Some (Ok t)) /\
    leaves t = s.
Proof.
  intros (t & Hc & Hl).
  destruct (parse_complete t "expression" Hc eq_refl s 0 (List.length s) [])
    as [n Hn].
  - simpl. now rewrite app_nil_r.
  - now rewrite Hl.
  - reflexivity.
  - exists n, t. split; trivial. intros fuel Hfuel.
    unfold parse_expression, parse. now rewrite (Hn fuel Hfuel).
Qed.

(** C4 at ["1+2"], which [tree_1_plus_2] derives. *)
Lemma parse_expression_complete_witness :
  exists n t,
    (forall fuel, n <= fuel ->
       parse fuel (tokens_of "1+2") 0 "expression" bnf_syntax
       = Some (Ok (List.length (tokens_of "1+2"), t)) /\
       parse_expression fuel (tokens_of "1+2") = Some (Ok t)) /\
    leaves t = tokens_of "1+2".
Proof.
  apply (parse_expression_complete (tokens_of "1+2")).
  exists tree_1_plus_2. split; [|reflexivity].
  exact (proj1 (parse_fuel_sound (tokens_of "1+2") bnf_syntax 20
                  0 "expression" 3 tree_1_plus_2 eq_refl)).
Defined.

(** ** The example of the main program (C5) *)

(** C5: with [x = 1], [y = 2], [z = 3], evaluating the tree parsed from
    ["10+2*x+3*(y+z)/2"] returns the float 19.5 (exactly 39/2), under every
    budget from 17 on.  The token ["/"] of [prodop] stands for
    [operator.truediv]: on the integers 5 and 2 it returns the float 2.5,
    not the integer quotient 2. *)
Theorem evaluate_main_example extra :
  run (17 + extra) [("x", PyInt 1); ("y", PyInt 2); ("z", PyInt 3)] "10+2*x+3*(y+z)/2"
  = Some (Ok (Num (PyFloat float_19_5))) /\
  denotes float_19_5 (39 # 2) /\
  evaluate [] (Node "prodop" [Leaf "/"]) = Ok (Fun truediv) /\
  arith truediv (PyInt 5) (PyInt 2) = Ok (PyFloat float_2_5) /\
  denotes float_2_5 (5 # 2).
Proof.
  split; [|repeat split; vm_compute; reflexivity].
  apply (run_mono 17); [lia|]. vm_compute. reflexivity.
Qed.

(** ** Multi-digit constants (C6) *)

(** C6: a [constant] node with two parts is evaluated by [numjoin] on the
    values of its parts, and [numjoin(1, 23)] is 123; ["123"] evaluates to
    123.  But the value of the trailing constant has lost its leading zeros
    before it is joined: ["105"] evaluates to 15 and ["100"] to 10, not to
    the integers these digit sequences denote. *)
Theorem constant_loses_inner_zeros :
  (forall env a b,
     evaluate env (Node "constant" [a; b]) =
     (x <- evaluate env a;; y <- evaluate env b;; numjoin x y)) /\
  numjoin (Num (PyInt 1)) (Num (PyInt 23)) = Ok (Num (PyInt 123)) /\
  run 20 [] "123" = Some (Ok (Num (PyInt 123))) /\
  run 20 [] "105" = Some (Ok (Num (PyInt 15))) /\
  run 20 [] "100" = Some (Ok (Num (PyInt 10))).
Proof. repeat split; vm_compute; reflexivity. Qed.

(** ** Variables (C7) *)

(** C7: for each of the variable names [x], [y], [z], the node
    [("variable", [name])] is a derivation tree of [variable] and evaluates to
    the number bound to [name] in the environment; when [name] is not bound,
    evaluation raises [NameError], Python's exception for a variable that is
    not defined.  The same holds for the expression that consists of the
    name alone, parsed and evaluated. *)
Theorem variable_reads_environment env name extra :
  In name ["x"; "y"; "z"] ->
  let outcome :=
    match binding env name with
    | Some v => Ok (Num v)
    | None => Raise NameError
    end in
  conforms bnf_syntax "variable" (Node "variable" [Leaf name]) /\
  evaluate env (Node "variable" [Leaf name]) = outcome /\
  run (6 + extra) env name = Some outcome.
Proof.
  intros Hin outcome; subst outcome. split; [|split].
  - simpl in Hin.
    destruct Hin as [<-|[<-|[<-|[]]]];
      match goal with
      | |- conforms _ _ (Node _ [Leaf ?n]) =>
          apply conforms_node with (rules := [["x"]; ["y"]; ["z"]]) (rule := [n]);
          [reflexivity | simpl; auto | repeat constructor]
      end.
  - simpl in Hin. destruct Hin as [<-|[<-|[<-|[]]]]; reflexivity.
  - apply (run_mono 6); [lia|].
    simpl in Hin. destruct Hin as [<-|[<-|[<-|[]]]]; reflexivity.
Qed.

(** C7 at [x] under the empty environment: [NameError]. *)
Lemma variable_reads_environment_witness :
  conforms bnf_syntax "variable" (Node "variable" [Leaf "x"]) /\
  evaluate [] (Node "variable" [Leaf "x"]) = Raise NameError /\
  run 6 [] "x" = Some (Raise NameError).
Proof.
  apply (variable_reads_environment [] "x" 0). simpl. auto.
Defined.

(** ** Symbols without a rule (C8) *)

(** C8, as the specification states it, fails.  In the grammar
    [expression ::= term | x] the symbol [term] has no rule.  The parser does
    not raise on it: it takes [term] for a terminal, so the token ["term"]
    matches it, and on the token ["x"] the mismatch raises [ValueError],
    which [parse] catches before it tries the next alternative. *)
Lemma dangling_symbol_is_matched_as_token :
  let syntax := [("expression", [["term"]; ["x"]])] in
  mem "term" syntax = false /\
  parse 5 ["term"] 0 "expression" syntax
  = Some (Ok (1, Node "expression" [Leaf "term"])) /\
  parse_part ["x"] syntax (parse_fuel ["x"] syntax 4) 0 "term" = Some (Raise ValueError) /\
  parse 5 ["x"] 0 "expression" syntax = Some (Ok (1, Node "expression" [Leaf "x"])).
Proof. repeat split. Qed.

(** C8, amended: [parse] called on an identifier that is no key of the
    grammar raises [KeyError], which is not one of the exceptions of
    [ParseError] and so is never caught and retried.  A symbol inside an
    alternative that is no key of the grammar is a terminal: it is compared
    with the current token, matches when they are equal, raises [ValueError]
    when they differ and [IndexError] when no token is left. *)
Theorem unknown_symbol_is_terminal fuel (p : parser) tokens syntax i name :
  lookup syntax name = None ->
  parse (S fuel) tokens i name syntax = Some (Raise KeyError) /\
  ParseError KeyError = false /\
  parse_part tokens syntax p i name =
  match nth_error tokens i with
  | None => Some (Raise IndexError)
  | Some token =>
      if String.eqb name token then Some (Ok (i + 1, Leaf token))
      else Some (Raise ValueError)
  end.
Proof.
  intros Hl. repeat split.
  - unfold parse; simpl; unfold parse_body. now rewrite Hl.
  - unfold parse_part, mem. now rewrite Hl.
Qed.

(** The amended C8 on the symbol [term] of [expression ::= term | x]. *)
Lemma unknown_symbol_is_terminal_witness :
  let syntax := [("expression", [["term"]; ["x"]])] in
  parse 1 ["x"] 0 "term" syntax = Some (Raise KeyError) /\
  ParseError KeyError = false /\
  parse_part ["x"] syntax (parse_fuel ["x"] syntax 4) 0 "term" = Some (Raise ValueError).
Proof.
  exact (unknown_symbol_is_terminal 0 (parse_fuel ["x"] [("expression", [["term"]; ["x"]])] 4)
           ["x"] [("expression", [["term"]; ["x"]])] 0 "term" eq_refl).
Defined.

(** ** Evaluation of parser output (C9) *)

(** C9: on every tree that [parse_expression] returns, under every
    environment that binds numbers, [evaluate] does not raise [TypeError],
    the exception of its branches for an unknown identifier or an unexpected
    number of parts; nor does it return a function.  It returns a number or
    raises another exception, such as [NameError] or [ZeroDivisionError]. *)
Theorem evaluate_total_on_parser_output fuel tokens env t :
  parse_expression fuel tokens = Some (Ok t) ->
  evaluate env t <> Raise TypeError /\
  ((exists n, evaluate env t = Ok (Num n)) \/
   (exists e, evaluate env t = Raise e /\ e <> TypeError)).
Proof.
  unfold parse_expression.
  destruct (parse fuel tokens 0 "expression" bnf_syntax) as [[[j t']|e]|] eqn:H;
    try discriminate.
  intros E; inv E.
  destruct (parse_fuel_sound tokens bnf_syntax fuel _ _ _ _ H) as [Hc _].
  pose proof (evaluate_well_typed env t "expression" Hc eq_refl) as W.
  unfold well_typed in W; simpl in W.
  destruct (evaluate env t) as [[n|f]|e]; try contradiction.
  - split; [discriminate | left; eauto].
  - split; [congruence | right; eauto].
Qed.

(** C9 at ["(x+1)/y"] with [x = 1] and [y = 0]: evaluation raises, but not
    [TypeError]. *)
Lemma evaluate_total_on_parser_output_witness :
  exists t,
    parse_expression 20 (tokens_of "(x+1)/y") = Some (Ok t) /\
    evaluate [("x", PyInt 1); ("y", PyInt 0)] t = Raise ZeroDivisionError /\
    evaluate [("x", PyInt 1); ("y", PyInt 0)] t <> Raise TypeError /\
    ((exists n, evaluate [("x", PyInt 1); ("y", PyInt 0)] t = Ok (Num n)) \/
     (exists e, evaluate [("x", PyInt 1); ("y", PyInt 0)] t = Raise e /\ e <> TypeError)).
Proof.
  eexists. split; [reflexivity|]. split; [reflexivity|].
  apply (evaluate_total_on_parser_output 20 (tokens_of "(x+1)/y")). reflexivity.
Defined.

(** ** Grouping of operators (C10) *)

Lemma conforms_chain_expression a b c op1 op2 :
  conforms bnf_syntax "term" a -> conforms bnf_syntax "term" b ->
  conforms bnf_syntax "term" c ->
  In op1 ["+"; "-"] -> In op2 ["+"; "-"] ->
  conforms bnf_syntax "expression" (chain "expression" "sumop" a op1 b op2 c).
Proof.
  intros Ha Hb Hc H1 H2.
  assert (S : forall op, In op ["+"; "-"] ->
                         conforms bnf_syntax "sumop" (Node "sumop" [Leaf op])).
  { intros op Hop. simpl in Hop.
    destruct Hop as [<-|[<-|[]]];
      match goal with
      | |- conforms _ _ (Node _ [Leaf ?n]) =>
          apply conforms_node with (rules := [["+"]; ["-"]]) (rule := [n]);
          [reflexivity | simpl; auto | repeat constructor]
      end. }
  unfold chain.
  eapply conforms_node; [reflexivity | left; reflexivity |].
  repeat constructor; auto.
  eapply conforms_node; [reflexivity | left; reflexivity |].
  repeat constructor; auto.
  eapply conforms_node; [reflexivity | right; left; reflexivity |].
  repeat constructor; auto.
Qed.

Lemma conforms_chain_term a b c op1 op2 :
  conforms bnf_syntax "factor" a -> conforms bnf_syntax "factor" b ->
  conforms bnf_syntax "factor" c ->
  In op1 ["*"; "/"] -> In op2 ["*"; "/"] ->
  conforms bnf_syntax "expression"
    (Node "expression" [chain "term" "prodop" a op1 b op2 c]).
Proof.
  intros Ha Hb Hc H1 H2.
  assert (S : forall op, In op ["*"; "/"] ->
                         conforms bnf_syntax "prodop" (Node "prodop" [Leaf op])).
  { intros op Hop. simpl in Hop.
    destruct Hop as [<-|[<-|[]]];
      match goal with
      | |- conforms _ _ (Node _ [Leaf ?n]) =>
          apply conforms_node with (rules := [["*"]; ["/"]]) (rule := [n]);
          [reflexivity | simpl; auto | repeat constructor]
      end. }
  unfold chain.
  eapply conforms_node; [reflexivity | right; left; reflexivity |].
  repeat constructor.
  eapply conforms_node; [reflexivity | left; reflexivity |].
  repeat constructor; auto.
  eapply conforms_node; [reflexivity | left; reflexivity |].
  repeat constructor; auto.
  eapply conforms_node; [reflexivity | right; left; reflexivity |].
  repeat constructor; auto.
Qed.

#[local] Arguments arith : simpl never.

Lemma evaluate_chain env level operator a b c op1 op2 f1 f2 x y z :
  (level = "expression" /\ operator = "sumop" /\ In op1 ["+"; "-"] /\ In op2 ["+"; "-"]) \/
  (level = "term" /\ operator = "prodop" /\ In op1 ["*"; "/"] /\ In op2 ["*"; "/"]) ->
  operator_of op1 = Some f1 -> operator_of op2 = Some f2 ->
  evaluate env a = Ok (Num x) -> evaluate env b = Ok (Num y) ->
  evaluate env c = Ok (Num z) ->
  evaluate env (chain level operator a op1 b op2 c) =
  (yz <- arith f2 y z;; r <- arith f1 x yz;; Ok (Num r)).
Proof.
  intros [(-> & -> & H1 & H2)|(-> & -> & H1 & H2)] F1 F2 Ha Hb Hc;
    simpl in H1, H2;
    destruct H1 as [<-|[<-|[]]]; destruct H2 as [<-|[<-|[]]];
    inv F1; inv F2; simpl; rewrite Ha, Hb, Hc; simpl;
    match goal with
    | |- context [arith ?f y z] => destruct (arith f y z); reflexivity
    end.
Qed.

(** The parser returns the derivation tree itself: the grammar is not
    ambiguous. *)
Lemma parse_expression_finds t :
  conforms bnf_syntax "expression" t ->
  exists n, forall fuel, n <= fuel -> parse_expression fuel (leaves t) = Some (Ok t).
Proof.
  intros Hc.
  destruct (parse_complete t "expression" Hc eq_refl (leaves t) 0
              (0 + List.length (leaves t)) []) as [n Hn];
    [simpl; now rewrite app_nil_r | reflexivity | reflexivity |].
  exists n. intros fuel Hfuel. unfold parse_expression, parse.
  now rewrite (Hn fuel Hfuel).
Qed.

Lemma leaves_chain level operator a op1 b op2 c :
  leaves (chain level operator a op1 b op2 c) =
  leaves a ++ op1 :: leaves b ++ op2 :: leaves c.
Proof.
  unfold chain; simpl. rewrite !app_nil_r. reflexivity.
Qed.

(** C10: operators of one level group to the right.  For terms [a], [b], [c]
    and operators [op1], [op2] of [sumop], the tokens of [a op1 b op2 c] are
    parsed to the tree in which [b op2 c] is the right operand of [op1]; the
    same holds for factors and the operators of [prodop] inside a term.
    Evaluating such a tree applies [op2] to the values of [b] and [c] first
    and then [op1] to the value of [a] and that result.  So ["8-2-1"]
    evaluates to 8 - (2 - 1) = 7, not to (8 - 2) - 1 = 5, and ["8/2/2"] to
    8 / (2 / 2) = 8.0. *)
Theorem operators_group_right :
  (forall a b c op1 op2,
     conforms bnf_syntax "term" a -> conforms bnf_syntax "term" b ->
     conforms bnf_syntax "term" c ->
     In op1 ["+"; "-"] -> In op2 ["+"; "-"] ->
     exists n, forall fuel, n <= fuel ->
       parse_expression fuel (leaves a ++ op1 :: leaves b ++ op2 :: leaves c)
       = Some (Ok (chain "expression" "sumop" a op1 b op2 c))) /\
  (forall a b c op1 op2,
     conforms bnf_syntax "factor" a -> conforms bnf_syntax "factor" b ->
     conforms bnf_syntax "factor" c ->
     In op1 ["*"; "/"] -> In op2 ["*"; "/"] ->
     exists n, forall fuel, n <= fuel ->
       parse_expression fuel (leaves a ++ op1 :: leaves b ++ op2 :: leaves c)
       = Some (Ok (Node "expression" [chain "term" "prodop" a op1 b op2 c]))) /\
  (forall env level operator a b c op1 op2 f1 f2 x y z,
     (level = "expression" /\ operator = "sumop" /\
      In op1 ["+"; "-"] /\ In op2 ["+"; "-"]) \/
     (level = "term" /\ operator = "prodop" /\
      In op1 ["*"; "/"] /\ In op2 ["*"; "/"]) ->
     operator_of op1 = Some f1 -> operator_of op2 = Some f2 ->
     evaluate env a = Ok (Num x) -> evaluate env b = Ok (Num y) ->
     evaluate env c = Ok (Num z) ->
     evaluate env (chain level operator a op1 b op2 c) =
     (yz <- arith f2 y z;; r <- arith f1 x yz;; Ok (Num r))) /\
  (forall extra env,
     run (9 + extra) env "8-2-1" = Some (Ok (Num (PyInt 7))) /\
     run (9 + extra) env "8/2/2" = Some (Ok (Num (PyFloat float_8)))) /\
  denotes float_8 8.
Proof.
  split; [|split; [|split; [|split]]].
  - intros a b c op1 op2 Ha Hb Hc H1 H2.
    rewrite <- (leaves_chain "expression" "sumop").
    apply parse_expression_finds. now apply conforms_chain_expression.
  - intros a b c op1 op2 Ha Hb Hc H1 H2.
    pose proof (conforms_chain_term a b c op1 op2 Ha Hb Hc H1 H2) as Hchain.
    destruct (parse_expression_finds _ Hchain) as [n Hn].
    exists n. intros fuel Hfuel. rewrite <- (Hn fuel Hfuel). f_equal.
    simpl. rewrite !app_nil_r. reflexivity.
  - exact evaluate_chain.
  - intros extra env; split; (apply (run_mono 9); [lia|]; reflexivity).
  - vm_compute. reflexivity.
Qed.

(** C10 at ["8-2-1"]: the tree nests [2-1] as the right operand. *)
Lemma operators_group_right_witness :
  leaves (digit_term "8") ++ "-" :: leaves (digit_term "2") ++ "-" :: leaves (digit_term "1")
  = tokens_of "8-2-1" /\
  exists n, forall fuel, n <= fuel ->
    parse_expression fuel (tokens_of "8-2-1")
    = Some (Ok (chain "expression" "sumop"
                  (digit_term "8") "-" (digit_term "2") "-" (digit_term "1"))).
Proof.
  split; [reflexivity|].
  refine (proj1 operators_group_right
            (digit_term "8") (digit_term "2") (digit_term "1") "-" "-" _ _ _ _ _).
  - exact (proj1 (parse_fuel_sound (tokens_of "8") bnf_syntax 9
                    0 "term" 1 (digit_term "8") eq_refl)).
  - exact (proj1 (parse_fuel_sound (tokens_of "2") bnf_syntax 9
                    0 "term" 1 (digit_term "2") eq_refl)).
  - exact (proj1 (parse_fuel_sound (tokens_of "1") bnf_syntax 9
                    0 "term" 1 (digit_term "1") eq_refl)).
  - simpl; auto.
  - simpl; auto.
Defined.

(** * Further properties of the parser and the evaluator *)

(** ** What [parse] returns and raises, for every grammar *)

(** X1: whatever the grammar, a successful [parse] from [i] returns an end
    position [j] and a node labelled with the identifier that is a
    derivation tree of it, whose leaves are exactly the slice
    [tokens[i:j]]: [j] is [i] plus the number of leaves, and it does not
    pass the end of the tokens when [i] does not. *)
Theorem parse_returns_derivation_of_slice fuel tokens syntax i j identifier t :
  parse fuel tokens i identifier syntax = Some (Ok (j, t)) ->
  conforms syntax identifier t /\
  (exists parts, t = Node identifier parts) /\
  j = i + List.length (leaves t) /\
  leaves t = firstn (j - i) (skipn i tokens) /\
  (i <= List.length tokens -> j <= List.length tokens).
Proof.
  intros H.
  destruct (parse_fuel_sound tokens syntax fuel _ _ _ _ H) as [Hc [Hj Hs]].
  split; trivial. split; [|split; [|split]]; trivial.
  - destruct fuel as [|fuel]; [discriminate|].
    unfold parse in H; simpl in H; unfold parse_body in H.
    destruct (lookup syntax identifier) as [rules|]; [|discriminate].
    destruct (parse_alternatives_sound tokens syntax _ (parse_fuel_sound tokens syntax fuel)
                _ _ _ _ _ H) as (_ & parts & _ & -> & _).
    now exists parts.
  - rewrite Hs, Hj. replace (i + List.length (leaves t) - i) with (List.length (leaves t)) by lia.
    now rewrite firstn_app, firstn_all, Nat.sub_diag, firstn_O, app_nil_r.
  - intros Hi. apply (f_equal (@List.length string)) in Hs.
    rewrite length_app, !length_skipn in Hs. lia.
Qed.

(** X1 in the middle of ["1+2)"]: from position 2 the root rule matches
    the one token ["2"]. *)
Lemma parse_returns_derivation_of_slice_witness :
  exists t,
    parse 20 (tokens_of "1+2)") 2 "expression" bnf_syntax = Some (Ok (3, t)) /\
    conforms bnf_syntax "expression" t /\
    (exists parts, t = Node "expression" parts) /\
    3 = 2 + List.length (leaves t) /\
    leaves t = firstn (3 - 2) (skipn 2 (tokens_of "1+2)")) /\
    (2 <= List.length (tokens_of "1+2)") -> 3 <= List.length (tokens_of "1+2)")).
Proof.
  eexists. split; [reflexivity|].
  apply (parse_returns_derivation_of_slice 20 (tokens_of "1+2)") bnf_syntax 2 3 "expression").
  reflexivity.
Defined.

Section Raises.

Variable tokens : list string.
Variable syntax : grammar.

Lemma parse_part_raises (p : parser) :
  raises_ValueError_only syntax p ->
  forall j part e,
    parse_part tokens syntax p j part = Some (Raise e) -> ParseError e = true.
Proof.
  intros Hp j part e; unfold parse_part.
  destruct (mem part syntax) eqn:Hm.
  - intros H. now rewrite (Hp _ _ _ Hm H).
  - destruct (nth_error tokens j) as [token|].
    + destruct (String.eqb part token); intros H; inv H; reflexivity.
    + intros H; inv H; reflexivity.
Qed.

Lemma parse_rule_raises (p : parser) :
  raises_ValueError_only syntax p ->
  forall rule i e,
    parse_rule tokens syntax p i rule = Some (Raise e) -> ParseError e = true.
Proof.
  intros Hp rule; induction rule as [|part rule IH]; intros i e; simpl; [discriminate|].
  destruct (parse_part tokens syntax p i part) as [[[i' el]|e']|] eqn:Hpart;
    try discriminate.
  - destruct (parse_rule tokens syntax p i' rule) as [[[i'' parts]|e']|] eqn:Hrule;
      try discriminate.
    intros H; inv H. eapply IH; eauto.
  - intros H; inv H. eapply parse_part_raises; eauto.
Qed.

Lemma parse_alternatives_raises (p : parser) :
  raises_ValueError_only syntax p ->
  forall rules i identifier e,
    parse_alternatives tokens syntax p i identifier rules = Some (Raise e) ->
    e = ValueError.
Proof.
  intros Hp rules; induction rules as [|rule rules IH]; intros i identifier e; simpl.
  - intros H; now inv H.
  - destruct (parse_rule tokens syntax p i rule) as [[[i' parts]|e']|] eqn:Hrule;
      try discriminate.
    rewrite (parse_rule_raises p Hp _ _ _ Hrule). apply IH.
Qed.

Lemma parse_fuel_raises fuel :
  forall i identifier e,
    parse_fuel tokens syntax fuel i identifier = Some (Raise e) ->
    match lookup syntax identifier with
    | Some _ => e = ValueError
    | None => e = KeyError
    end.
Proof.
  induction fuel as [|fuel IH]; intros i identifier e; simpl; [discriminate|].
  unfold parse_body.
  destruct (lookup syntax identifier) as [rules|] eqn:Hl.
  - apply parse_alternatives_raises.
    intros j part e' Hm H. specialize (IH _ _ _ H).
    unfold mem in Hm. now destruct (lookup syntax part).
  - intros H; now inv H.
Qed.

End Raises.

(** X2: whatever the grammar and the tokens, [parse] raises [KeyError] when
    its identifier is no key of the grammar and nothing but [ValueError]
    when it is one.  An [IndexError] of [tokens[j]] never leaves [parse],
    and a [KeyError] never comes from a rule that [parse] reaches through
    the grammar. *)
Theorem parse_raises_ValueError_or_KeyError fuel tokens syntax i identifier e :
  parse fuel tokens i identifier syntax = Some (Raise e) ->
  (lookup syntax identifier = None /\ e = KeyError) \/
  (mem identifier syntax = true /\ e = ValueError).
Proof.
  intros H. apply parse_fuel_raises in H. unfold mem.
  destruct (lookup syntax identifier); [right | left]; auto.
Qed.

(** X2 on the empty token sequence: the [IndexError]s of the ten digit
    alternatives and of the others end as one [ValueError]. *)
Lemma parse_raises_ValueError_or_KeyError_witness :
  parse 10 [] 0 "expression" bnf_syntax = Some (Raise ValueError) /\
  ((lookup bnf_syntax "expression" = None /\ ValueError = KeyError) \/
   (mem "expression" bnf_syntax = true /\ ValueError = ValueError)).
Proof.
  split; [reflexivity|].
  apply (parse_raises_ValueError_or_KeyError 10 [] bnf_syntax 0 "expression").
  reflexivity.
Defined.

(** ** The shipped grammar: phrases, their trees and where they end *)

(** X3: on the shipped grammar the parser reads a phrase whole and stops
    there.  When the tokens from the start position on are the leaves of a
    derivation tree [t] of [expression] followed by [rest], and [rest] is
    empty or begins with a token that is neither an operator nor a digit,
    then [parse] returns [t] and the position right after the phrase,
    whatever the tokens [before] the start position are; [parse_expression]
    returns [t] and leaves [rest] unread. *)
Theorem parse_reads_phrase_up_to_stop_token before t rest :
  conforms bnf_syntax "expression" t ->
  next_not_in (stops "expression") rest = true ->
  exists n, forall fuel, n <= fuel ->
    parse fuel (before ++ leaves t ++ rest) (List.length before) "expression" bnf_syntax
    = Some (Ok (List.length before + List.length (leaves t), t)) /\
    parse_expression fuel (leaves t ++ rest) = Some (Ok t).
Proof.
  intros Hc Hn.
  destruct (parse_complete t "expression" Hc eq_refl (before ++ leaves t ++ rest)
              (List.length before) (List.length before + List.length (leaves t)) rest)
    as [n1 H1]; trivial.
  { now rewrite skipn_app, skipn_all, Nat.sub_diag. }
  destruct (parse_complete t "expression" Hc eq_refl (leaves t ++ rest)
              0 (0 + List.length (leaves t)) rest) as [n2 H2]; trivial.
  exists (n1 + n2). intros fuel Hfuel. split.
  - apply H1; lia.
  - unfold parse_expression, parse. rewrite H2 by lia. reflexivity.
Qed.

(** X3 on ["(1+2)"]: the phrase ["1+2"] between the parentheses. *)
Lemma parse_reads_phrase_up_to_stop_token_witness :
  exists n, forall fuel, n <= fuel ->
    parse fuel (["("] ++ leaves tree_1_plus_2 ++ [")"]) (List.length ["("])
      "expression" bnf_syntax
    = Some (Ok (List.length ["("] + List.length (leaves tree_1_plus_2), tree_1_plus_2)) /\
    parse_expression fuel (leaves tree_1_plus_2 ++ [")"]) = Some (Ok tree_1_plus_2).
Proof.
  apply (parse_reads_phrase_up_to_stop_token ["("] tree_1_plus_2 [")"]).
  - exact (proj1 (parse_fuel_sound (tokens_of "1+2") bnf_syntax 20
                    0 "expression" 3 tree_1_plus_2 eq_refl)).
  - reflexivity.
Defined.

(** X4: the shipped grammar is not ambiguous: two derivation trees of one
    symbol with the same leaves are the same tree. *)
Theorem derivation_tree_unique part t1 t2 :
  conforms bnf_syntax part t1 ->
  conforms bnf_syntax part t2 ->
  leaves t1 = leaves t2 ->
  t1 = t2.
Proof.
  intros H1 H2 Hl.
  destruct (mem part bnf_syntax) eqn:Hm.
  - destruct (parse_complete t1 part H1 Hm (leaves t1) 0 (0 + List.length (leaves t1)) [])
      as [n1 F1]; [now rewrite app_nil_r | reflexivity | reflexivity |].
    destruct (parse_complete t2 part H2 Hm (leaves t1) 0 (0 + List.length (leaves t1)) [])
      as [n2 F2]; [now rewrite Hl, app_nil_r | now rewrite Hl | reflexivity |].
    specialize (F1 (n1 + n2) ltac:(lia)). specialize (F2 (n1 + n2) ltac:(lia)).
    congruence.
  - apply conforms_terminal in H1, H2; trivial. congruence.
Qed.

(** X4 at the tree of ["1+2"]. *)
Lemma derivation_tree_unique_witness :
  conforms bnf_syntax "expression" tree_1_plus_2 /\
  leaves tree_1_plus_2 = tokens_of "1+2" /\
  tree_1_plus_2 =
  Node "expression"
    [digit_term "1"; Node "sumop" [Leaf "+"]; Node "expression" [digit_term "2"]].
Proof.
  assert (H : conforms bnf_syntax "expression" tree_1_plus_2)
    by exact (proj1 (parse_fuel_sound (tokens_of "1+2") bnf_syntax 20
                       0 "expression" 3 tree_1_plus_2 eq_refl)).
  split; [exact H|]. split; [reflexivity|].
  exact (derivation_tree_unique "expression" tree_1_plus_2 _ H H eq_refl).
Defined.

(** ** The shipped grammar: input that cannot begin a phrase *)

#[local] Arguments String.eqb : simpl nomatch.

Section FirstToken.

Variable tokens : list string.

Lemma factor_fails fuel i :
  next_not_in first_tokens (skipn i tokens) = true ->
  3 <= fuel ->
  parse_fuel tokens bnf_syntax fuel i "factor" = Some (Raise ValueError).
Proof.
  intros Hn Hfuel. destruct fuel as [|fuel]; [lia|].
  change first_tokens with (["("] ++ ["x"; "y"; "z"] ++ digits) in Hn.
  rewrite !next_not_in_app in Hn.
  apply andb_true_iff in Hn as [Hp Hn]. apply andb_true_iff in Hn as [Hv Hd].
  enter_parse.
  rewrite (constant_fails tokens fuel i _ eq_refl Hd) by lia. simpl.
  rewrite (terminal_rule_fails tokens fuel i "variable" _ _ eq_refl eq_refl eq_refl eq_refl Hv)
    by lia.
  simpl. rewrite nth_error_hd_skipn.
  destruct (skipn i tokens) as [|token rest]; [reflexivity|].
  cbn [hd_error]. unfold next_not_in in Hp. cbn [existsb] in Hp.
  destruct (String.eqb "(" token); [simpl in Hp; discriminate Hp | reflexivity].
Qed.

Lemma term_fails fuel i :
  next_not_in first_tokens (skipn i tokens) = true ->
  4 <= fuel ->
  parse_fuel tokens bnf_syntax fuel i "term" = Some (Raise ValueError).
Proof.
  intros Hn Hfuel. destruct fuel as [|fuel]; [lia|].
  enter_parse. rewrite (factor_fails fuel i Hn) by lia. reflexivity.
Qed.

Lemma expression_fails fuel i :
  next_not_in first_tokens (skipn i tokens) = true ->
  5 <= fuel ->
  parse_fuel tokens bnf_syntax fuel i "expression" = Some (Raise ValueError).
Proof.
  intros Hn Hfuel. destruct fuel as [|fuel]; [lia|].
  enter_parse. rewrite (term_fails fuel i Hn) by lia. reflexivity.
Qed.

End FirstToken.

(** X5: when no token is left at the start position (the input is empty,
    or the position is at or past its end), or the token there is none of
    [(], [x], [y], [z] and the digits, then [parse] on [expression], [term]
    or [factor] raises [ValueError], and so does [parse_expression] on such
    tokens. *)
Theorem parse_rejects_first_token extra tokens i identifier :
  In identifier ["expression"; "term"; "factor"] ->
  next_not_in first_tokens (skipn i tokens) = true ->
  parse (5 + extra) tokens i identifier bnf_syntax = Some (Raise ValueError) /\
  (i = 0 -> parse_expression (5 + extra) tokens = Some (Raise ValueError)).
Proof.
  intros Hin Hn. split.
  - unfold parse. simpl in Hin. destruct Hin as [<-|[<-|[<-|[]]]].
    + apply expression_fails; [trivial | lia].
    + apply term_fails; [trivial | lia].
    + apply factor_fails; [trivial | lia].
  - intros ->. unfold parse_expression, parse.
    rewrite expression_fails; [reflexivity | trivial | lia].
Qed.

(** X5 on the empty input. *)
Lemma parse_rejects_first_token_witness :
  parse 5 [] 0 "expression" bnf_syntax = Some (Raise ValueError) /\
  (0 = 0 -> parse_expression 5 [] = Some (Raise ValueError)).
Proof.
  apply (parse_rejects_first_token 0 [] 0 "expression"); [simpl; auto | reflexivity].
Defined.

(** ** Progress and termination *)

Lemma conforms_leaves_nonempty syntax t :
  no_empty_rule syntax ->
  forall part, conforms syntax part t -> leaves t <> [].
Proof.
  intros Hne. induction t as [token|identifier parts IH] using tree_nested_ind;
    intros part Hc; simpl; [discriminate|].
  inversion Hc as [|id rules rule parts' Hl Hin Hf]; subst.
  destruct Hf as [|first p0 rule' parts' Hp0 Hf].
  - now apply Hne in Hl.
  - inversion IH as [|? ? IH0 _]; subst. simpl.
    intros H. apply app_eq_nil in H as [H _]. exact (IH0 _ Hp0 H).
Qed.

Lemma no_empty_rule_bnf_syntax : no_empty_rule bnf_syntax.
Proof.
  intros identifier rules Hl Hin. apply lookup_In in Hl. simpl in Hl.
  repeat (destruct Hl as [Hl|Hl]; [inv Hl|]); try contradiction;
    simpl in Hin; repeat (destruct Hin as [Hin|Hin]; [discriminate Hin|]); contradiction.
Qed.

Lemma parse_fuel_progress fuel tokens syntax i j identifier t :
  no_empty_rule syntax ->
  parse_fuel tokens syntax fuel i identifier = Some (Ok (j, t)) ->
  i < j /\ i < List.length tokens /\ j <= List.length tokens.
Proof.
  intros Hne H.
  destruct (parse_fuel_sound tokens syntax fuel _ _ _ _ H) as [Hc [Hj Hs]].
  pose proof (conforms_leaves_nonempty syntax t Hne _ Hc) as Hl.
  assert (0 < List.length (leaves t)) by (destruct (leaves t); [congruence | simpl; lia]).
  apply (f_equal (@List.length string)) in Hs.
  rewrite length_app, !length_skipn in Hs. lia.
Qed.

(** X6: in a grammar without an empty alternative, such as the shipped
    one, a successful [parse] consumes at least one token: the end position
    is past the start position, which is itself inside the tokens. *)
Theorem parse_consumes_a_token fuel tokens syntax i j identifier t :
  no_empty_rule syntax ->
  parse fuel tokens i identifier syntax = Some (Ok (j, t)) ->
  i < j /\ i < List.length tokens /\ j <= List.length tokens.
Proof. apply parse_fuel_progress. Qed.

(** X6 on ["1+2)"] and the shipped grammar. *)
Lemma parse_consumes_a_token_witness :
  exists t,
    parse 20 (tokens_of "1+2)") 0 "expression" bnf_syntax = Some (Ok (3, t)) /\
    0 < 3 /\ 0 < List.length (tokens_of "1+2)") /\ 3 <= List.length (tokens_of "1+2)").
Proof.
  eexists. split; [reflexivity|].
  eapply (parse_consumes_a_token 20 (tokens_of "1+2)") bnf_syntax 0 3 "expression").
  - exact no_empty_rule_bnf_syntax.
  - reflexivity.
Defined.

Section Halting.

Variable tokens : list string.
Variable syntax : grammar.
Variable p : parser.

Hypothesis p_advances :
  forall j part j' t, p j part = Some (Ok (j', t)) ->
                      j < j' /\ j < List.length tokens.

Lemma parse_part_advances j part j' t :
  parse_part tokens syntax p j part = Some (Ok (j', t)) ->
  j < j' /\ j < List.length tokens.
Proof.
  unfold parse_part. destruct (mem part syntax); [apply p_advances|].
  destruct (nth_error tokens j) as [token|] eqn:Hn; [|discriminate].
  destruct (String.eqb part token); [|discriminate].
  intros H; inv H. split; [lia|]. apply nth_error_Some. congruence.
Qed.

Lemma parse_part_halts j part :
  (mem part syntax = true -> p j part <> None) ->
  parse_part tokens syntax p j part <> None.
Proof.
  unfold parse_part. destruct (mem part syntax); [auto|]. intros _.
  destruct (nth_error tokens j) as [token|]; [|discriminate].
  destruct (String.eqb part token); discriminate.
Qed.

Lemma parse_rule_halts rule :
  forall i,
    (forall part j, In part rule -> i <= j -> mem part syntax = true -> p j part <> None) ->
    parse_rule tokens syntax p i rule <> None.
Proof.
  induction rule as [|part rule IH]; intros i H; simpl; [discriminate|].
  destruct (parse_part tokens syntax p i part) as [[[i' el]|e]|] eqn:Hpart.
  - destruct (parse_part_advances _ _ _ _ Hpart) as [Hlt _].
    assert (Hrule : parse_rule tokens syntax p i' rule <> None).
    { apply IH. intros part' j Hin Hj. apply H; [now right | lia]. }
    destruct (parse_rule tokens syntax p i' rule) as [[[i'' parts]|e]|];
      [discriminate | discriminate | contradiction].
  - discriminate.
  - exfalso. revert Hpart. apply parse_part_halts. apply H; [now left | lia].
Qed.

Lemma parse_rule_halts_after_first first rule i :
  (mem first syntax = true -> p i first <> None) ->
  (i < List.length tokens ->
   forall part j, In part rule -> i < j -> mem part syntax = true -> p j part <> None) ->
  parse_rule tokens syntax p i (first :: rule) <> None.
Proof.
  intros Hfirst Hrest. simpl.
  destruct (parse_part tokens syntax p i first) as [[[i' el]|e]|] eqn:Hpart.
  - destruct (parse_part_advances _ _ _ _ Hpart) as [Hlt Hi].
    assert (Hrule : parse_rule tokens syntax p i' rule <> None).
    { apply parse_rule_halts. intros part j Hin Hj. apply Hrest; trivial. lia. }
    destruct (parse_rule tokens syntax p i' rule) as [[[i'' parts]|e]|];
      [discriminate | discriminate | contradiction].
  - discriminate.
  - exfalso. revert Hpart. now apply parse_part_halts.
Qed.

Lemma parse_alternatives_halts rules i identifier :
  (forall rule, In rule rules -> parse_rule tokens syntax p i rule <> None) ->
  parse_alternatives tokens syntax p i identifier rules <> None.
Proof.
  induction rules as [|rule rules IH]; intros H; simpl; [discriminate|].
  pose proof (H rule (or_introl eq_refl)) as Hrule.
  destruct (parse_rule tokens syntax p i rule) as [[[i' parts]|e]|];
    [discriminate | | contradiction].
  destruct (ParseError e); [|discriminate].
  apply IH. intros rule' Hin. apply H. now right.
Qed.

End Halting.

Section Termination.

Variable tokens : list string.

Lemma parse_fuel_advances fuel j part j' t :
  parse_fuel tokens bnf_syntax fuel j part = Some (Ok (j', t)) ->
  j < j' /\ j < List.length tokens.
Proof.
  intros H.
  destruct (parse_fuel_progress fuel tokens bnf_syntax j j' part t
              no_empty_rule_bnf_syntax H) as (? & ? & _).
  auto.
Qed.

Lemma parse_fuel_halts_step fuel i identifier :
  (forall rules rule,
      lookup bnf_syntax identifier = Some rules -> In rule rules ->
      parse_rule tokens bnf_syntax (parse_fuel tokens bnf_syntax fuel) i rule <> None) ->
  parse_fuel tokens bnf_syntax (S fuel) i identifier <> None.
Proof.
  intros H. simpl. unfold parse_body.
  destruct (lookup bnf_syntax identifier) as [rules|] eqn:Hl; [|discriminate].
  apply parse_alternatives_halts. intros rule Hin. now apply (H rules).
Qed.

Ltac first_then_rest fuel :=
  apply (parse_rule_halts_after_first tokens bnf_syntax _ (parse_fuel_advances fuel)).

Ltac one_rule H Hin :=
  inv H; simpl in Hin; repeat (destruct Hin as [Hin|Hin]; [subst|]); try contradiction.

Lemma parse_halts_within m :
  forall i part fuel,
    List.length tokens - i <= m ->
    recursion_bound part m <= fuel ->
    parse_fuel tokens bnf_syntax fuel i part <> None.
Proof.
  induction m as [m IH] using lt_wf_ind. intros i part fuel Hm.
  assert (Hrest : forall fuel' part' j,
             i < List.length tokens -> i < j ->
             recursion_bound part' (m - 1) <= fuel' ->
             parse_fuel tokens bnf_syntax fuel' j part' <> None).
  { intros fuel' part' j Hi Hj Hb. apply (IH (m - 1)); [lia | lia | exact Hb]. }
  assert (Hterminal : forall fuel' part' j,
             part' <> "expression" -> part' <> "term" -> part' <> "factor" ->
             part' <> "constant" -> 1 <= fuel' ->
             parse_fuel tokens bnf_syntax fuel' j part' <> None).
  { intros [|fuel'] part' j N1 N2 N3 N4 Hb; [lia|].
    apply parse_fuel_halts_step. intros rules rule Hl Hin.
    apply lookup_In in Hl. simpl in Hl.
    repeat (destruct Hl as [Hl|Hl]; [one_rule Hl Hin|]); try contradiction;
      try congruence;
      (first_then_rest fuel'; [discriminate | intros _ ? ? []]). }
  assert (Hconstant : forall fuel', m + 2 <= fuel' ->
             parse_fuel tokens bnf_syntax fuel' i "constant" <> None).
  { intros [|fuel'] Hb; [lia|].
    apply parse_fuel_halts_step. intros rules rule Hl Hin. one_rule Hl Hin;
      (first_then_rest fuel';
       [ intros _; apply Hterminal; (discriminate || lia)
       | intros Hi part' j Hin' Hj _; simpl in Hin';
         repeat (destruct Hin' as [<-|Hin']); try contradiction;
         apply Hrest; trivial; unfold recursion_bound; simpl; lia ]). }
  assert (Hfactor : forall fuel', 3 * m + 3 <= fuel' ->
             parse_fuel tokens bnf_syntax fuel' i "factor" <> None).
  { intros [|fuel'] Hb; [lia|].
    apply parse_fuel_halts_step. intros rules rule Hl Hin. one_rule Hl Hin;
      (first_then_rest fuel';
       [ intros Hmem; first [ discriminate Hmem
                            | apply Hconstant; lia
                            | apply Hterminal; (discriminate || lia) ]
       | intros Hi part' j Hin' Hj Hmem; simpl in Hin';
         repeat (destruct Hin' as [<-|Hin']); try contradiction;
         first [ discriminate Hmem | apply Hrest; trivial; unfold recursion_bound; simpl; lia ] ]). }
  assert (Hterm : forall fuel', 3 * m + 4 <= fuel' ->
             parse_fuel tokens bnf_syntax fuel' i "term" <> None).
  { intros [|fuel'] Hb; [lia|].
    apply parse_fuel_halts_step. intros rules rule Hl Hin. one_rule Hl Hin;
      (first_then_rest fuel';
       [ intros _; apply Hfactor; lia
       | intros Hi part' j Hin' Hj _; simpl in Hin';
         repeat (destruct Hin' as [<-|Hin']); try contradiction;
         apply Hrest; trivial; unfold recursion_bound; simpl; lia ]). }
  assert (Hexpression : forall fuel', 3 * m + 5 <= fuel' ->
             parse_fuel tokens bnf_syntax fuel' i "expression" <> None).
  { intros [|fuel'] Hb; [lia|].
    apply parse_fuel_halts_step. intros rules rule Hl Hin. one_rule Hl Hin;
      (first_then_rest fuel';
       [ intros _; apply Hterm; lia
       | intros Hi part' j Hin' Hj _; simpl in Hin';
         repeat (destruct Hin' as [<-|Hin']); try contradiction;
         apply Hrest; trivial; unfold recursion_bound; simpl; lia ]). }
  unfold recursion_bound.
  destruct (String.eqb_spec part "expression") as [->|N1]; [apply Hexpression|].
  destruct (String.eqb_spec part "term") as [->|N2]; [apply Hterm|].
  destruct (String.eqb_spec part "factor") as [->|N3]; [apply Hfactor|].
  destruct (String.eqb_spec part "constant") as [->|N4]; [apply Hconstant|].
  now apply Hterminal.
Qed.

End Termination.

(** X7: on the shipped grammar [parse] returns or raises on every token
    sequence, from every start position and for every identifier: the calls
    of [parse] nest no deeper than [recursion_bound], which for [expression]
    is three times the number of tokens left plus five, and every budget
    from there on gives the same outcome.  So does [parse_expression]. *)
Theorem parse_terminates tokens i identifier :
  (exists r, forall fuel,
      recursion_bound identifier (List.length tokens - i) <= fuel ->
      parse fuel tokens i identifier bnf_syntax = Some r) /\
  (exists r, forall fuel,
      3 * List.length tokens + 5 <= fuel ->
      parse_expression fuel tokens = Some r).
Proof.
  assert (H : forall i identifier, exists r, forall fuel,
               recursion_bound identifier (List.length tokens - i) <= fuel ->
               parse fuel tokens i identifier bnf_syntax = Some r).
  { clear i identifier. intros i identifier.
    pose proof (parse_halts_within tokens (List.length tokens - i) i identifier
                  (recursion_bound identifier (List.length tokens - i))
                  (Nat.le_refl _) (Nat.le_refl _)) as H.
    destruct (parse_fuel tokens bnf_syntax
                (recursion_bound identifier (List.length tokens - i)) i identifier)
      as [r|] eqn:E; [|contradiction].
    exists r. intros fuel Hfuel. exact (parse_mono _ _ _ _ _ _ _ Hfuel E). }
  split; [apply H|].
  destruct (H 0 "expression") as [r Hr].
  exists (match r with Ok (_, t) => Ok t | Raise e => Raise e end).
  intros fuel Hfuel. unfold parse_expression. rewrite Hr.
  - now destruct r as [[j t]|e].
  - rewrite Nat.sub_0_r. unfold recursion_bound; simpl. lia.
Qed.

(** ** The evaluator and the global variables *)



(** ** [numjoin] on integers *)

Lemma int_digits_chars d :
  forall l acc b,
    int_digits (chars d ++ l) acc b =
    int_digits l (horner d acc) (match d with Decimal.Nil => b | _ => true end).
Proof.
  unfold chars.
  induction d as [|d IH|d IH|d IH|d IH|d IH|d IH|d IH|d IH|d IH|d IH];
    intros l acc b; [reflexivity|..];
    cbn [NilEmpty.string_of_uint list_ascii_of_string app int_digits horner];
    (match goal with
     | |- context [digit_value ?c] =>
         let v := eval vm_compute in (digit_value c) in
         change (digit_value c) with v
     end);
    cbv iota; rewrite IH; destruct d; reflexivity.
Qed.

Lemma horner_acc d :
  forall acc, horner d (Zpos acc) = Zpos (Pos.of_uint_acc d acc).
Proof.
  induction d as [|d IH|d IH|d IH|d IH|d IH|d IH|d IH|d IH|d IH|d IH];
    intros acc; [reflexivity|..];
    cbn [horner Pos.of_uint_acc]; rewrite <- IH; f_equal; lia.
Qed.

Lemma horner_0 d : horner d 0 = Z.of_uint d.
Proof.
  unfold Z.of_uint.
  induction d as [|d IH|d IH|d IH|d IH|d IH|d IH|d IH|d IH|d IH|d IH];
    [reflexivity | exact IH | ..];
    cbn [horner Pos.of_uint]; apply horner_acc.
Qed.

Lemma horner_shift d :
  forall acc,
    horner d acc = (acc * 10 ^ Z.of_nat (Decimal.nb_digits d) + horner d 0)%Z.
Proof.
  induction d as [|d IH|d IH|d IH|d IH|d IH|d IH|d IH|d IH|d IH|d IH];
    intros acc;
    [simpl; lia|..];
    cbn [horner Decimal.nb_digits];
    rewrite Nat2Z.inj_succ, Z.pow_succ_r by lia;
    rewrite (IH (10 * acc + _)%Z), (IH (10 * 0 + _)%Z); ring.
Qed.

Lemma digits_of_nonnil n : digits_of n <> Decimal.Nil.
Proof.
  destruct n; simpl; [discriminate | |]; apply DecimalPos.Unsigned.to_uint_nonnil.
Qed.

Lemma digits_of_value n : Z.of_uint (digits_of n) = Z.abs n.
Proof.
  destruct n as [|p|p]; [reflexivity | |]; unfold Z.of_uint; simpl;
    now rewrite DecimalPos.Unsigned.of_to.
Qed.

Lemma str_digits n :
  list_ascii_of_string (str n) =
  if (n <? 0)%Z then "-"%char :: chars (digits_of n) else chars (digits_of n).
Proof.
  unfold str, chars, NilZero.string_of_int, NilZero.string_of_uint.
  destruct n as [|p|p]; [reflexivity | |]; simpl;
    pose proof (DecimalPos.Unsigned.to_uint_nonnil p);
    destruct (Pos.to_uint p); congruence.
Qed.

Lemma length_chars d : List.length (chars d) = Decimal.nb_digits d.
Proof.
  unfold chars.
  induction d; simpl; congruence.
Qed.

Lemma chars_no_space d : Forall (fun c => isspace c = false) (chars d).
Proof.
  unfold chars. induction d; simpl; constructor; trivial.
Qed.

Lemma lstrip_no_space l : Forall (fun c => isspace c = false) l -> lstrip l = l.
Proof. intros [|c l' Hc _]; simpl; [reflexivity | now rewrite Hc]. Qed.

Lemma strip_no_space l : Forall (fun c => isspace c = false) l -> strip l = l.
Proof.
  intros H. unfold strip. rewrite (lstrip_no_space l H).
  rewrite lstrip_no_space; [apply rev_involutive|].
  apply Forall_forall. intros c Hin. rewrite <- in_rev in Hin.
  revert c Hin. now apply Forall_forall.
Qed.

Lemma list_ascii_of_string_append s1 s2 :
  list_ascii_of_string (String.append s1 s2) =
  list_ascii_of_string s1 ++ list_ascii_of_string s2.
Proof. induction s1 as [|c s1 IH]; simpl; [reflexivity | now rewrite IH]. Qed.

Lemma length_list_ascii_of_string s :
  List.length (list_ascii_of_string s) = String.length s.
Proof. induction s as [|c s IH]; simpl; [reflexivity | now rewrite IH]. Qed.

Lemma chars_first d :
  d <> Decimal.Nil ->
  exists c l, chars d = c :: l /\
              (nat_of_ascii c =? 45) = false /\ (nat_of_ascii c =? 43) = false.
Proof.
  unfold chars. destruct d; [congruence|..]; intros _; simpl; eauto.
Qed.

Lemma sign_of_digits d l :
  d <> Decimal.Nil ->
  match chars d ++ l with
  | c :: rest =>
      if nat_of_ascii c =? 45 then (true, rest)
      else if nat_of_ascii c =? 43 then (false, rest)
      else (false, chars d ++ l)
  | [] => (false, chars d ++ l)
  end = (false, chars d ++ l).
Proof.
  intros Hd. destruct (chars_first d Hd) as (c & l1 & E1 & N45 & N43).
  rewrite E1 at 1. cbn [app]. now rewrite N45, N43.
Qed.

(** [int] on a sequence of decimal digits, with or without a minus sign in
    front, and on digits with a minus sign where none may stand. *)
Lemma int_of_digits s d1 d2 :
  d1 <> Decimal.Nil ->
  (list_ascii_of_string s = chars d1 ++ chars d2 ->
   int s = Ok (horner d2 (horner d1 0))) /\
  (list_ascii_of_string s = "-"%char :: chars d1 ++ chars d2 ->
   int s = Ok (- horner d2 (horner d1 0))%Z) /\
  (forall l, list_ascii_of_string s = chars d1 ++ "-"%char :: chars d2 ++ l \/
             list_ascii_of_string s = "-"%char :: chars d1 ++ "-"%char :: chars d2 ++ l ->
             Forall (fun c => isspace c = false) l ->
             int s = Raise ValueError).
Proof.
  intros Hd.
  assert (Hd1 : match d1 with Decimal.Nil => false | _ => true end = true)
    by (destruct d1; congruence).
  assert (Hminus : forall l, Forall (fun c => isspace c = false) l ->
            Forall (fun c => isspace c = false) ("-"%char :: l))
    by (intros l Hl; constructor; [reflexivity | exact Hl]).
  assert (Hchars : forall d l, Forall (fun c => isspace c = false) l ->
            Forall (fun c => isspace c = false) (chars d ++ l))
    by (intros d l Hl; apply Forall_app; split; [apply chars_no_space | exact Hl]).
  split; [|split].
  - intros Hs. unfold int. rewrite Hs. cbv zeta.
    rewrite strip_no_space
      by (rewrite <- (app_nil_r (chars d2)); auto).
    rewrite sign_of_digits by trivial.
    rewrite int_digits_chars, Hd1.
    rewrite <- (app_nil_r (chars d2)), int_digits_chars.
    now destruct d2.
  - intros Hs. unfold int. rewrite Hs. cbv zeta.
    rewrite strip_no_space
      by (rewrite <- (app_nil_r (chars d2)); auto).
    change (nat_of_ascii "-" =? 45) with true. cbv iota.
    rewrite int_digits_chars, Hd1.
    rewrite <- (app_nil_r (chars d2)), int_digits_chars.
    now destruct d2.
  - intros l [Hs|Hs] Hl; unfold int; rewrite Hs; cbv zeta;
      rewrite strip_no_space by auto.
    + rewrite sign_of_digits by trivial.
      rewrite int_digits_chars. reflexivity.
    + change (nat_of_ascii "-" =? 45) with true. cbv iota.
      rewrite int_digits_chars. reflexivity.
Qed.

Lemma horner_digits_of a b :
  horner (digits_of b) (horner (digits_of a) 0) =
  (Z.abs a * 10 ^ Z.of_nat (Decimal.nb_digits (digits_of b)) + Z.abs b)%Z.
Proof.
  rewrite horner_shift, !horner_0, !digits_of_value. reflexivity.
Qed.

Lemma length_str b :
  (0 <= b)%Z -> String.length (str b) = Decimal.nb_digits (digits_of b).
Proof.
  intros Hb. rewrite <- length_list_ascii_of_string, str_digits.
  destruct (Z.ltb_spec b 0); [lia|]. apply length_chars.
Qed.

Lemma numjoin_ints a b :
  numjoin (Num (PyInt a)) (Num (PyInt b)) =
  if (b <? 0)%Z then Raise ValueError
  else
    let k := Z.of_nat (String.length (str b)) in
    Ok (Num (PyInt (if (a <? 0)%Z then a * 10 ^ k - b else a * 10 ^ k + b)%Z)).
Proof.
  unfold numjoin.
  pose proof (int_of_digits (String.append (str a) (str b)) (digits_of a) (digits_of b)
                (digits_of_nonnil a)) as (Hpos & Hneg & Hbad).
  rewrite list_ascii_of_string_append, !str_digits in Hpos, Hneg, Hbad.
  destruct (Z.ltb_spec b 0) as [Hb|Hb].
  - rewrite (Hbad []); [reflexivity | | constructor].
    rewrite app_nil_r. destruct (a <? 0)%Z; [right | left]; reflexivity.
  - cbv zeta. rewrite (length_str b Hb).
    destruct (Z.ltb_spec a 0) as [Ha|Ha].
    + rewrite Hneg by reflexivity. rewrite horner_digits_of. cbn [bind].
      do 3 f_equal. lia.
    + rewrite Hpos by reflexivity. rewrite horner_digits_of. cbn [bind].
      do 3 f_equal. lia.
Qed.


(** ** The outcomes of [evaluate] on parser output *)

Lemma arith_raises op a b e :
  arith op a b = Raise e -> e = ZeroDivisionError \/ e = OverflowError.
Proof.
  assert (F : forall n e', float_of_int n = Raise e' -> e' = OverflowError).
  { intros n e'; unfold float_of_int.
    destruct (binary_normalize prec emax n 0 false); intros H; now inv H. }
  assert (T : forall n e', to_float n = Raise e' -> e' = OverflowError).
  { intros [n|f] e'; simpl; [apply F | discriminate]. }
  assert (D : forall x y e', int_truediv x y = Raise e' ->
                             e' = ZeroDivisionError \/ e' = OverflowError).
  { intros x y e'; unfold int_truediv. destruct (Z.eqb y 0).
    - intros H; inv H; auto.
    - match goal with |- context [SFdiv ?p ?q ?u ?v] => destruct (SFdiv p q u v) end;
        intros H; inv H; auto. }
  unfold arith. intros H.
  destruct op, a as [x|x], b as [y|y]; cbn [to_float bind] in H;
    repeat match type of H with
      | context [int_truediv ?u ?v] =>
          destruct (int_truediv u v) eqn:?; cbn [bind] in H
      | context [float_of_int ?u] =>
          destruct (float_of_int u) eqn:?; cbn [bind] in H
      | context [is_zero ?f] => destruct (is_zero f)
      end;
    try discriminate H; inv H; eauto.
Qed.

Lemma call_outcome env f a b :
  (exists op, f = Ok (Fun op)) ->
  outcome_of env "term" a -> outcome_of env "term" b ->
  outcome_of env "term" (f' <- f;; a' <- a;; b' <- b;; call f' a' b').
Proof.
  intros [op ->] Ha Hb; unfold outcome_of in *; simpl in *.
  destruct a as [[x|?]|e]; simpl; trivial; try contradiction.
  destruct b as [[y|?]|e]; simpl; trivial; try contradiction.
  destruct (arith op x y) eqn:E; simpl; trivial.
  right. eapply arith_raises; eauto.
Qed.

Lemma outcome_of_constant env r :
  outcome_of env "constant" r -> outcome_of env "term" r.
Proof.
  unfold outcome_of; simpl. now intros (n & -> & _).
Qed.

Lemma evaluate_outcome env t :
  forall part, conforms bnf_syntax part t -> mem part bnf_syntax = true ->
  outcome_of env part (evaluate env t).
Proof.
  induction t as [token|identifier parts IH] using tree_nested_ind;
    intros part Hc Hm.
  - destruct (conforms_rule _ _ _ Hc Hm) as (? & ? & ? & ? & _); discriminate.
  - destruct (conforms_rule _ _ _ Hc Hm) as (rules & rule & parts' & Heq & Hl & Hin & Hf).
    inv Heq. clear Hc Hm. apply lookup_In in Hl. simpl in Hl.
    repeat (destruct Hl as [Hl|Hl]; [inv Hl|]); try contradiction;
      simpl in Hin; repeat (destruct Hin as [Hin|Hin]; [subst rule|]); try contradiction.
    all: split_parts.
    all: try (match goal with
              | |- outcome_of _ _ (evaluate _ (Node _ [Leaf _])) => idtac
              end;
              unfold outcome_of; simpl;
              first [ eexists; split; [reflexivity | discriminate]
                    | eexists; reflexivity ]).
    all: repeat match goal with
           | Ha : conforms _ ?s ?a, IHa : forall part, conforms _ part ?a -> _ |- _ =>
               pose proof (IHa s Ha eq_refl); clear IHa
           end.
    + change (outcome_of env "expression") with (outcome_of env "term").
      now apply call_outcome.
    + assumption.
    + now apply call_outcome.
    + assumption.
    + match goal with
      | Ha : conforms _ "constant" ?a |- _ =>
          destruct (conforms_node_inv _ _ Ha eq_refl) as [ps ->]
      end.
      rewrite evaluate_factor_1 by auto. now apply outcome_of_constant.
    + match goal with
      | Ha : conforms _ "variable" ?a |- _ =>
          destruct (conforms_node_inv _ _ Ha eq_refl) as [ps ->]
      end.
      rewrite evaluate_factor_1; auto.
    + match goal with
      | Ha : conforms _ "expression" ?a |- _ =>
          destruct (conforms_node_inv _ _ Ha eq_refl) as [ps ->]
      end.
      rewrite evaluate_factor_3; auto.
    + unfold outcome_of; simpl; unfold global.
      destruct (binding env "x") eqn:E; trivial.
      left; split; trivial. exists "x"; simpl; auto.
    + unfold outcome_of; simpl; unfold global.
      destruct (binding env "y") eqn:E; trivial.
      left; split; trivial. exists "y"; simpl; auto.
    + unfold outcome_of; simpl; unfold global.
      destruct (binding env "z") eqn:E; trivial.
      left; split; trivial. exists "z"; simpl; auto.
    + match goal with
      | Ha : outcome_of env "digit" _, Hb : outcome_of env "constant" _ |- _ =>
          destruct Ha as (n0 & Ea & Hn0); destruct Hb as (n1 & Eb & Hn1)
      end.
      unfold outcome_of; simpl. rewrite Ea, Eb. cbn [bind].
      rewrite numjoin_ints.
      destruct (Z.ltb_spec n1 0); [lia|]. destruct (Z.ltb_spec n0 0); [lia|].
      eexists; split; [reflexivity|].
      pose proof (Z.pow_nonneg 10 (Z.of_nat (String.length (str n1)))). nia.
    + assumption.
Qed.

(** X10: on every tree that [parse_expression] returns, [evaluate] returns
    a number or raises one of three exceptions: [NameError], and then one of
    [x], [y], [z] is not bound; [ZeroDivisionError]; or [OverflowError], of
    an [int] too large for a float.  It raises no [ValueError], so none of
    the conversions between [int] and [str] fails. *)
Theorem evaluate_outcomes_on_parser_output fuel tokens env t :
  parse_expression fuel tokens = Some (Ok t) ->
  match evaluate env t with
  | Ok (Num _) => True
  | Ok (Fun _) => False
  | Raise e => arithmetic_or_unbound env e
  end.
Proof.
  unfold parse_expression.
  destruct (parse fuel tokens 0 "expression" bnf_syntax) as [[[j t']|e]|] eqn:H;
    try discriminate.
  intros E; inv E.
  destruct (parse_fuel_sound tokens bnf_syntax fuel _ _ _ _ H) as [Hc _].
  exact (evaluate_outcome env t "expression" Hc eq_refl).
Qed.

(** X10 on ["x/0"] with [x] bound. *)
Lemma evaluate_outcomes_on_parser_output_witness :
  exists t,
    parse_expression 20 (tokens_of "x/0") = Some (Ok t) /\
    evaluate [("x", PyInt 1)] t = Raise ZeroDivisionError /\
    match evaluate [("x", PyInt 1)] t with
    | Ok (Num _) => True
    | Ok (Fun _) => False
    | Raise e => arithmetic_or_unbound [("x", PyInt 1)] e
    end.
Proof.
  eexists. split; [reflexivity|]. split; [reflexivity|].
  apply (evaluate_outcomes_on_parser_output 20 (tokens_of "x/0")). reflexivity.
Defined.

(** X11: a derivation tree of [constant], such as the parser builds for a
    sequence of digits, evaluates under every environment to an [int] that
    is not negative; evaluating it raises nothing. *)
Theorem constant_evaluates_to_natural env t :
  conforms bnf_syntax "constant" t ->
  exists n, evaluate env t = Ok (Num (PyInt n)) /\ (0 <= n)%Z.
Proof.
  intros Hc. exact (evaluate_outcome env t "constant" Hc eq_refl).
Qed.

(** X11 on the constant ["105"], whose value is 15. *)
Lemma constant_evaluates_to_natural_witness :
  exists t,
    parse 9 (tokens_of "105") 0 "constant" bnf_syntax = Some (Ok (3, t)) /\
    evaluate [] t = Ok (Num (PyInt 15)) /\
    exists n, evaluate [] t = Ok (Num (PyInt n)) /\ (0 <= n)%Z.
Proof.
  eexists. split; [reflexivity|]. split; [reflexivity|].
  apply (constant_evaluates_to_natural []).
  exact (proj1 (parse_fuel_sound (tokens_of "105") bnf_syntax 9
                  0 "constant" 3 _ eq_refl)).
Defined.

(** ** Constants without a zero inside *)

Lemma conforms_digit_node c :
  In c digits -> conforms bnf_syntax "digit" (digit_node c).
Proof.
  intros Hin. unfold digit_node.
  eapply conforms_node with (rule := [c]); [reflexivity | |].
  - simpl in Hin |- *.
    repeat (destruct Hin as [<-|Hin]; [auto 12|]). contradiction.
  - constructor; [|constructor]. constructor.
    simpl in Hin. repeat (destruct Hin as [<-|Hin]; [reflexivity|]). contradiction.
Qed.

Lemma conforms_constant_node c d' rest :
  In c digits ->
  (d' <> Decimal.Nil -> conforms bnf_syntax "constant" rest) ->
  conforms bnf_syntax "constant" (constant_node c d' rest).
Proof.
  intros Hc Hrest. pose proof (conforms_digit_node c Hc) as Hd.
  destruct d'; unfold constant_node;
    [ eapply conforms_node with (rule := ["digit"]);
      [reflexivity | simpl; auto | repeat constructor; exact Hd]
    | eapply conforms_node with (rule := ["digit"; "constant"]);
      [reflexivity | simpl; auto
      | repeat constructor; [exact Hd | apply Hrest; discriminate]] .. ].
Qed.

Lemma conforms_constant_tree d :
  d <> Decimal.Nil -> conforms bnf_syntax "constant" (constant_tree d).
Proof.
  induction d; intros Hn; [congruence|..]; cbn [constant_tree];
    (apply conforms_constant_node; [unfold digits; simpl; auto 12 | exact IHd]).
Qed.

Lemma leaves_constant_tree d :
  leaves (constant_tree d) = tokens_of (NilEmpty.string_of_uint d).
Proof.
  induction d; [reflexivity|..]; cbn [constant_tree];
    (destruct d; [reflexivity|..];
     unfold constant_node; cbn [leaves flat_map digit_node app];
     rewrite app_nil_r; cbn [leaves flat_map app] in IHd; rewrite IHd; reflexivity).
Qed.

Lemma digits_of_of_uint d :
  d <> Decimal.Nil -> zero_only_last d = true -> digits_of (Z.of_uint d) = d.
Proof.
  intros Hn Hz.
  assert (E : digits_of (Z.of_uint d) = Decimal.unorm d).
  { rewrite <- DecimalPos.Unsigned.to_of. unfold Z.of_uint.
    now destruct (Pos.of_uint d). }
  rewrite E. destruct d; try reflexivity; [congruence|].
  simpl in Hz. destruct d; [reflexivity | discriminate ..].
Qed.

Lemma zero_only_last_inner d :
  zero_only_last d = true -> inner_zero_free d = true.
Proof.
  destruct d; simpl; trivial. destruct d; trivial; discriminate.
Qed.

Lemma of_uint_nonneg d : (0 <= Z.of_uint d)%Z.
Proof. unfold Z.of_uint. apply N2Z.is_nonneg. Qed.

Lemma evaluate_constant_node env c d' rest v :
  evaluate env (digit_node c) = Ok (Num (PyInt v)) ->
  (0 <= v)%Z ->
  (d' <> Decimal.Nil ->
   evaluate env rest = Ok (Num (PyInt (Z.of_uint d'))) /\
   digits_of (Z.of_uint d') = d') ->
  evaluate env (constant_node c d' rest) = Ok (Num (PyInt (horner d' v))).
Proof.
  intros Hc Hv Hrest.
  assert (Step : d' <> Decimal.Nil ->
            evaluate env (Node "constant" [digit_node c; rest])
            = Ok (Num (PyInt (horner d' v)))).
  { intros Hn. destruct (Hrest Hn) as [Er Ed].
    change (evaluate env (Node "constant" [digit_node c; rest]))
      with (a <- evaluate env (digit_node c);; b <- evaluate env rest;; numjoin a b).
    rewrite Hc, Er. cbn [bind]. rewrite numjoin_ints.
    pose proof (of_uint_nonneg d').
    destruct (Z.ltb_spec (Z.of_uint d') 0); [lia|].
    destruct (Z.ltb_spec v 0); [lia|].
    cbv zeta. rewrite length_str by trivial. rewrite Ed.
    rewrite (horner_shift d' v), horner_0. reflexivity. }
  destruct d'; [exact Hc | apply Step; discriminate ..].
Qed.

Lemma constant_tree_value env d :
  d <> Decimal.Nil -> inner_zero_free d = true ->
  evaluate env (constant_tree d) = Ok (Num (PyInt (Z.of_uint d))).
Proof.
  induction d; intros Hn Hz; [congruence|..];
    rewrite <- horner_0; cbn [constant_tree horner];
    (apply evaluate_constant_node;
     [ reflexivity | lia
     | intros Hd; split;
       [ apply IHd; [exact Hd | apply zero_only_last_inner; exact Hz]
       | apply digits_of_of_uint; [exact Hd | exact Hz] ] ]).
Qed.

Lemma constant_tree_node d :
  d <> Decimal.Nil -> exists parts, constant_tree d = Node "constant" parts.
Proof.
  destruct d; [congruence|..]; intros _; cbn [constant_tree];
    destruct d; unfold constant_node; eauto.
Qed.

(** X12: a constant evaluates to the integer that its digits denote when
    none of its digits is 0, except perhaps the first and the last one.  For
    such decimal digits [d], parsing their text and evaluating the tree
    returns the [int] [Z.of_uint d] under every environment, from some
    budget on. *)
Theorem literal_without_inner_zero_evaluates_to_its_number d :
  d <> Decimal.Nil ->
  inner_zero_free d = true ->
  exists n, forall fuel env, n <= fuel ->
    run fuel env (NilEmpty.string_of_uint d) = Some (Ok (Num (PyInt (Z.of_uint d)))).
Proof.
  intros Hn Hz.
  assert (Hc : conforms bnf_syntax "expression" (literal_tree d)).
  { unfold literal_tree.
    eapply conforms_node with (rule := ["term"]);
      [reflexivity | simpl; auto | repeat constructor].
    eapply conforms_node with (rule := ["factor"]);
      [reflexivity | simpl; auto | repeat constructor].
    eapply conforms_node with (rule := ["constant"]);
      [reflexivity | simpl; auto | repeat constructor].
    now apply conforms_constant_tree. }
  destruct (parse_expression_finds _ Hc) as [n Hparse].
  exists n. intros fuel env Hfuel. unfold run.
  replace (tokens_of (NilEmpty.string_of_uint d)) with (leaves (literal_tree d))
    by (unfold literal_tree; simpl; rewrite !app_nil_r; apply leaves_constant_tree).
  rewrite (Hparse fuel Hfuel). f_equal.
  destruct (constant_tree_node d Hn) as [parts E].
  change (evaluate env (literal_tree d))
    with (evaluate env (Node "factor" [constant_tree d])).
  rewrite E, evaluate_factor_1 by auto. rewrite <- E.
  now apply constant_tree_value.
Qed.

(** X12 on ["120"], whose only zero is its last digit. *)
Lemma literal_without_inner_zero_evaluates_to_its_number_witness :
  NilEmpty.string_of_uint (Decimal.D1 (Decimal.D2 (Decimal.D0 Decimal.Nil))) = "120" /\
  Z.of_uint (Decimal.D1 (Decimal.D2 (Decimal.D0 Decimal.Nil))) = 120%Z /\
  exists n, forall fuel env, n <= fuel ->
    run fuel env (NilEmpty.string_of_uint (Decimal.D1 (Decimal.D2 (Decimal.D0 Decimal.Nil))))
    = Some (Ok (Num (PyInt (Z.of_uint (Decimal.D1 (Decimal.D2 (Decimal.D0 Decimal.Nil))))))).
Proof.
  split; [reflexivity|]. split; [reflexivity|].
  apply (literal_without_inner_zero_evaluates_to_its_number
           (Decimal.D1 (Decimal.D2 (Decimal.D0 Decimal.Nil)))); [discriminate | reflexivity].
Defined.

(** ** The tokens before the start position *)

Section Shift.

Variable before tokens : list string.
Variable syntax : grammar.
Variable p q : parser.

Hypothesis q_shifts_p :
  forall i part, q (List.length before + i) part = shift_result (List.length before) (p i part).

Lemma parse_part_shift i part :
  parse_part (before ++ tokens) syntax q (List.length before + i) part =
  shift_result (List.length before) (parse_part tokens syntax p i part).
Proof.
  unfold parse_part. destruct (mem part syntax); [apply q_shifts_p|].
  rewrite nth_error_app2 by lia.
  replace (List.length before + i - List.length before) with i by lia.
  destruct (nth_error tokens i) as [token|]; [|reflexivity].
  destruct (String.eqb part token); [|reflexivity].
  simpl. now rewrite Nat.add_assoc.
Qed.

Lemma parse_rule_shift rule :
  forall i,
    parse_rule (before ++ tokens) syntax q (List.length before + i) rule =
    shift_result (List.length before) (parse_rule tokens syntax p i rule).
Proof.
  induction rule as [|part rule IH]; intros i; [reflexivity|].
  cbn [parse_rule]. rewrite parse_part_shift.
  destruct (parse_part tokens syntax p i part) as [[[i' el]|e]|]; try reflexivity.
  cbn [shift_result]. rewrite IH.
  now destruct (parse_rule tokens syntax p i' rule) as [[[i'' parts]|e]|].
Qed.

Lemma parse_alternatives_shift rules :
  forall i identifier,
    parse_alternatives (before ++ tokens) syntax q (List.length before + i) identifier rules =
    shift_result (List.length before)
      (parse_alternatives tokens syntax p i identifier rules).
Proof.
  induction rules as [|rule rules IH]; intros i identifier; [reflexivity|].
  cbn [parse_alternatives]. rewrite parse_rule_shift.
  destruct (parse_rule tokens syntax p i rule) as [[[i' parts]|e]|]; try reflexivity.
  cbn [shift_result]. destruct (ParseError e); [apply IH | reflexivity].
Qed.

End Shift.

(** X13: [parse] looks at no token before its start position.  With any
    tokens [before] put in front and the start position moved on by their
    number, it returns the same tree with the end position moved on by the
    same number, or raises the same exception, for every grammar. *)
Theorem parse_ignores_tokens_before fuel before tokens i identifier syntax :
  parse fuel (before ++ tokens) (List.length before + i) identifier syntax =
  shift_result (List.length before) (parse fuel tokens i identifier syntax).
Proof.
  unfold parse. revert i identifier.
  induction fuel as [|fuel IH]; intros i identifier; [reflexivity|].
  simpl. unfold parse_body.
  destruct (lookup syntax identifier) as [rules|]; [|reflexivity].
  now apply parse_alternatives_shift.
Qed.

(** ** The parser and the language of the grammar *)

(** X14: the root rule matches a token sequence up to its end exactly when
    the sequence is in the language of [expression]: [parse] from position 0
    returns the length of [s] as end position, under some budget, if and
    only if [s] has a derivation tree. *)
Theorem parse_matches_all_iff_in_language s :
  in_language bnf_syntax "expression" s <->
  exists fuel t, parse fuel s 0 "expression" bnf_syntax = Some (Ok (List.length s, t)).
Proof.
  split.
  - intros (t & Hc & Hl).
    destruct (parse_complete t "expression" Hc eq_refl s 0 (List.length s) [])
      as [n Hn]; [simpl; now rewrite app_nil_r | now rewrite Hl | reflexivity |].
    exists n, t. apply Hn. lia.
  - intros (fuel & t & H).
    destruct (parse_fuel_sound s bnf_syntax fuel _ _ _ _ H) as [Hc Hs].
    exists t. split; trivial.
    rewrite (covers_firstn _ _ _ Hs). apply firstn_all.
Qed.

(** ** Expressions without division *)

Lemma call_int_outcome f a b :
  (exists op, f = Ok (Fun op) /\ op <> truediv) ->
  int_outcome "term" a -> int_outcome "term" b ->
  int_outcome "term" (f' <- f;; a' <- a;; b' <- b;; call f' a' b').
Proof.
  intros (op & -> & Hop) (x & ->) (y & ->). unfold int_outcome; simpl.
  unfold arith. destruct op; simpl; eauto. congruence.
Qed.

Lemma evaluate_int_outcome env t :
  int_environment env ->
  forall part, conforms bnf_syntax part t -> mem part bnf_syntax = true ->
  ~ In "/" (leaves t) ->
  int_outcome part (evaluate env t).
Proof.
  intros Henv.
  induction t as [token|identifier parts IH] using tree_nested_ind;
    intros part Hc Hm Hdiv.
  - destruct (conforms_rule _ _ _ Hc Hm) as (? & ? & ? & ? & _); discriminate.
  - destruct (conforms_rule _ _ _ Hc Hm) as (rules & rule & parts' & Heq & Hl & Hin & Hf).
    inv Heq. clear Hc Hm. apply lookup_In in Hl. simpl in Hl.
    repeat (destruct Hl as [Hl|Hl]; [inv Hl|]); try contradiction;
      simpl in Hin; repeat (destruct Hin as [Hin|Hin]; [subst rule|]); try contradiction.
    all: split_parts.
    all: try (exfalso; apply Hdiv; simpl; auto; fail).
    all: try (match goal with
              | |- int_outcome ?s (evaluate _ (Node _ [Leaf _])) =>
                  first [ constr_eq s "variable"; fail 2 | idtac ]
              end;
              unfold int_outcome; simpl;
              first [ eexists; split; [reflexivity | discriminate]
                    | eexists; reflexivity ]).
    all: simpl in Hdiv; rewrite ?app_nil_r in Hdiv; rewrite ?in_app_iff in Hdiv.
    all: repeat match goal with
           | Ha : conforms _ ?s ?a, IHa : forall part, conforms _ part ?a -> _ |- _ =>
               pose proof (IHa s Ha eq_refl ltac:(tauto)); clear IHa
           end.
    + change (int_outcome "expression") with (int_outcome "term").
      now apply call_int_outcome.
    + assumption.
    + now apply call_int_outcome.
    + assumption.
    + match goal with
      | Ha : conforms _ "constant" ?a |- _ =>
          destruct (conforms_node_inv _ _ Ha eq_refl) as [ps ->]
      end.
      rewrite evaluate_factor_1; auto.
    + match goal with
      | Ha : conforms _ "variable" ?a |- _ =>
          destruct (conforms_node_inv _ _ Ha eq_refl) as [ps ->]
      end.
      rewrite evaluate_factor_1; auto.
    + match goal with
      | Ha : conforms _ "expression" ?a |- _ =>
          destruct (conforms_node_inv _ _ Ha eq_refl) as [ps ->]
      end.
      rewrite evaluate_factor_3; auto.
    + destruct (Henv "x") as [n E]; [simpl; auto|].
      unfold int_outcome; simpl; unfold global. rewrite E. eauto.
    + destruct (Henv "y") as [n E]; [simpl; auto|].
      unfold int_outcome; simpl; unfold global. rewrite E. eauto.
    + destruct (Henv "z") as [n E]; [simpl; auto|].
      unfold int_outcome; simpl; unfold global. rewrite E. eauto.
    + match goal with
      | Ha : conforms _ "digit" ?a, Hb : conforms _ "constant" ?b |- _ =>
          assert (Hc : conforms bnf_syntax "constant" (Node "constant" [a; b]))
            by (eapply conforms_node with (rule := ["digit"; "constant"]);
                [reflexivity | simpl; auto | repeat constructor; assumption]);
          destruct (evaluate_outcome env _ "constant" Hc eq_refl) as (n & E & _)
      end.
      unfold int_outcome; simpl. exists n. exact E.
    + assumption.
Qed.

(** X15: when [x], [y] and [z] are bound to [int]s and the tokens contain no
    ["/"], evaluating the tree that [parse_expression] returns raises
    nothing and returns an [int]. *)
Theorem evaluate_without_division_returns_int fuel tokens env t :
  int_environment env ->
  ~ In "/" tokens ->
  parse_expression fuel tokens = Some (Ok t) ->
  exists n, evaluate env t = Ok (Num (PyInt n)).
Proof.
  intros Henv Hdiv. unfold parse_expression.
  destruct (parse fuel tokens 0 "expression" bnf_syntax) as [[[j t']|e]|] eqn:H;
    try discriminate.
  intros E; inv E.
  destruct (parse_fuel_sound tokens bnf_syntax fuel _ _ _ _ H) as [Hc Hs].
  apply (evaluate_int_outcome env t Henv "expression" Hc eq_refl).
  intros Hin. apply Hdiv.
  rewrite (covers_firstn _ _ _ Hs) in Hin.
  rewrite <- (firstn_skipn j tokens). apply in_or_app. now left.
Qed.

(** X15 on ["2*(x-y)+z"] with [x = 1], [y = 5], [z = 3]: the [int] -5. *)
Lemma evaluate_without_division_returns_int_witness :
  exists t,
    parse_expression 30 (tokens_of "2*(x-y)+z") = Some (Ok t) /\
    evaluate [("x", PyInt 1); ("y", PyInt 5); ("z", PyInt 3)] t = Ok (Num (PyInt (-5))) /\
    exists n, evaluate [("x", PyInt 1); ("y", PyInt 5); ("z", PyInt 3)] t = Ok (Num (PyInt n)).
Proof.
  eexists. split; [reflexivity|]. split; [reflexivity|].
  apply (evaluate_without_division_returns_int 30 (tokens_of "2*(x-y)+z")).
  - intros name Hin. simpl in Hin.
    destruct Hin as [<-|[<-|[<-|[]]]]; eexists; reflexivity.
  - simpl. intros H.
    repeat (destruct H as [H|H]; [discriminate H|]). exact H.
  - reflexivity.
Defined.
